(** * claude-code-templates: translation resolver and key-set validator

    A shallow embedding of [cli-tool/src/i18n.js] (class [I18n], the
    instance the module keeps with the functions exported around it, and
    [parseLanguageFromArgs]) and of [cli-tool/scripts/validate-translations.js]
    (class [TranslationValidator] and [main]), followed by the properties
    the specification states about them and by properties of the rest of
    the two modules.

    Conventions.
    - A JavaScript string is a [string]; its characters stand for the code
      units of the source string, and the default [Array.prototype.sort]
      compares them lexicographically, as [String.leb] does.
    - A JavaScript number is a binary64 [float].
    - [undefined] and [null] results are [None] where the source produces
      only one of them; a parsed JSON [null] is the constructor [JNull].
    - What the script host supplies (prototype chains, number formatting,
      the file system, the process environment) is an interface whose
      operations are parameters of the development. *)

From Stdlib Require Import Floats.PrimFloat Floats.FloatOps Floats.SpecFloat.
From Stdlib Require Import Numbers.Cyclic.Int63.Uint63.
From Stdlib Require Import Strings.Ascii.
From stdpp Require Import gmap strings list sorting pretty.
From Equations Require Import Equations.

Set Warnings "-register-all,-inexact-float".
#[local] Open Scope string_scope.

(** ** The host language: JSON data, strings, arrays, numbers *)

Module Js.

(** What [JSON.parse] yields. An object is given by its own entries in
    the order [Object.entries] enumerates them. *)
Inductive json : Type :=
| JNull
| JBool (b : bool)
| JNum (x : float)
| JStr (s : string)
| JArr (items : list json)
| JObj (entries : list (string * json)).

(** *** Strings *)

(** [s.startsWith(p)] *)
Definition startsWith (s p : string) : bool := String.prefix p s.

(** [s.endsWith(p)] *)
Definition endsWith (s p : string) : bool :=
  String.prefix (String.rev p) (String.rev s).

(** [s.split(sep)] for a one-character separator: never empty, and the
    empty string splits into one empty segment. *)
Fixpoint split (sep : ascii) (s : string) : list string :=
  match s with
  | "" => [""]
  | String c rest =>
      if Ascii.eqb c sep then "" :: split sep rest
      else match split sep rest with
           | segment :: segments => String c segment :: segments
           | [] => [String c ""]
           end
  end.

(** [keys.sort()] on an array of strings: the default comparator orders
    strings by their code units, as [String.le] does. *)
Definition sort (keys : list string) : list string := merge_sort String.le keys.

(** [keys.includes(key)] on an array of strings. *)
Definition includes (keys : list string) (key : string) : bool :=
  existsb (String.eqb key) keys.

(** A canonical array index: the decimal numeral of a natural number,
    without sign or leading zeros. *)
Definition digit_value (c : ascii) : option N :=
  let n := N_of_ascii c in
  if (48 <=? n)%N && (n <=? 57)%N then Some (n - 48)%N else None.

Fixpoint numeral_value (acc : N) (s : string) : option N :=
  match s with
  | "" => Some acc
  | String c rest =>
      match digit_value c with
      | Some d => numeral_value (10 * acc + d)%N rest
      | None => None
      end
  end.

Definition array_index (name : string) : option nat :=
  match name with
  | "" => None
  | _ =>
      match numeral_value 0 name with
      | Some n => if String.eqb (pretty n) name then Some (N.to_nat n) else None
      | None => None
      end
  end.

(** *** Numbers *)

(** The number of a length or a count: exact below 2^53, and a length
    in JavaScript stays below that. *)
Definition number_of_nat (n : nat) : float :=
  PrimFloat.of_uint63 (Uint63.of_Z (Z.of_nat n)).

(** [x.toFixed(2)], kept as the count of hundredths its decimal string
    denotes: for a finite [x] the integer nearest to [100 * x], the
    larger one on a tie of the magnitudes, with the sign of [x]. The
    exact value of [x] is [m * 2^e]. *)
Definition toFixed2 (x : float) : option Z :=
  match Prim2SF x with
  | S754_zero _ => Some 0%Z
  | S754_finite negative m e =>
      let num := (200 * Z.pos m * 2 ^ Z.max e 0)%Z in
      let den := (2 ^ Z.max (- e) 0)%Z in
      let n := ((num + den) / (2 * den))%Z in
      Some (if negative then (- n)%Z else n)
  | _ => None
  end.

(** [parseFloat] of such a string: the double nearest to the decimal
    it denotes, which the correctly rounded quotient by 100 gives for
    every count below 2^53. *)
Definition parseFloat_fixed2 (hundredths : Z) : float :=
  let magnitude := PrimFloat.of_uint63 (Uint63.of_Z (Z.abs hundredths)) in
  let q := PrimFloat.div magnitude (PrimFloat.of_uint63 100) in
  if (hundredths <? 0)%Z then PrimFloat.opp q else q.

(** [parseFloat(x.toFixed(2))]; [NaN] and the infinities print as
    themselves and parse back. *)
Definition round2 (x : float) : float :=
  match toFixed2 x with
  | Some hundredths => parseFloat_fixed2 hundredths
  | None => x
  end.

(** *** Values at run time *)

(** A value is parsed data or an object of the host (a built-in
    function or prototype reached through a prototype chain). *)
Inductive value (host : Type) : Type :=
| Data (j : json)
| Host (h : host).
#[global] Arguments Data {host} j.
#[global] Arguments Host {host} h.

(** The script host. [inherited v name] is what [v[name]] yields when
    [name] is not an own property of [v], [None] standing for
    [undefined]; [display v] is [String(v)] for numbers, arrays, objects
    and host objects. *)
Class Runtime (host : Type) : Type := {
  inherited : value host → string → option (value host);
  display : value host → string;
}.

Section Values.
Context {host : Type} {runtime : Runtime host}.

(** [ToBoolean] *)
Definition truthy (v : value host) : bool :=
  match v with
  | Data JNull => false
  | Data (JBool b) => b
  | Data (JNum x) => negb (PrimFloat.is_zero x || PrimFloat.is_nan x)
  | Data (JStr s) => negb (String.eqb s "")
  | Data (JArr _) | Data (JObj _) => true
  | Host _ => true
  end.


(** The first entry named [name]. *)
Fixpoint entry (entries : list (string * json)) (name : string) : option json :=
  match entries with
  | [] => None
  | (k, v) :: rest => if String.eqb k name then Some v else entry rest name
  end.

(** The own properties of parsed data: the entries of an object, the
    indices and [length] of an array, the indices and [length] of a
    string. *)
Definition own_property (j : json) (name : string) : option json :=
  match j with
  | JObj entries => entry entries name
  | JArr items =>
      if String.eqb name "length" then Some (JNum (number_of_nat (length items)))
      else i ← array_index name; items !! i
  | JStr s =>
      if String.eqb name "length" then Some (JNum (number_of_nat (String.length s)))
      else i ← array_index name; c ← String.get i s; Some (JStr (String c ""))
  | _ => None
  end.

(** [v[name]] for a [v] that is neither [null] nor [undefined]. *)
Definition get_prop (v : value host) (name : string) : option (value host) :=
  match v with
  | Data j =>
      match own_property j name with
      | Some x => Some (Data x)
      | None => inherited v name
      end
  | Host _ => inherited v name
  end.

(** [String(v)] *)
Definition to_string (v : value host) : string :=
  match v with
  | Data (JStr s) => s
  | Data JNull => "null"
  | Data (JBool true) => "true"
  | Data (JBool false) => "false"
  | _ => display v
  end.

End Values.

(** [Object.entries(v)]; it throws on [null]. *)
Definition Object_entries (j : json) : option (list (string * json)) :=
  match j with
  | JObj entries => Some entries
  | JArr items => Some (imap (λ i item, (pretty i, item)) items)
  | JStr s =>
      Some (imap (λ i c, (pretty i, JStr (String c ""))) (String.list_ascii_of_string s))
  | JBool _ | JNum _ => Some []
  | JNull => None
  end.

(** [s.repeat(count)] *)
Definition repeat (s : string) (count : nat) : string :=
  String.concat "" (replicate count s).

(** The line feed, written [\n] in the source. *)
Definition newline : string := String "010"%char "".

End Js.

(** ** The platform *)

Module Node.
Import Js.

(** How a call completes: normally, or by throwing an [Error] with a
    message. *)
Inductive completion (A : Type) : Type :=
| Normal (a : A)
| Throw (message : string).
#[global] Arguments Normal {A} a.
#[global] Arguments Throw {A} message.

#[export] Instance completion_ret : MRet completion := λ A, Normal.

#[export] Instance completion_bind : MBind completion :=
  λ A B (k : A → completion B) (m : completion A),
    match m with
    | Normal a => k a
    | Throw message => Throw message
    end.

(** What the two modules ask of Node: [path], [fs], [JSON],
    [process], [Intl] and the case mapping of strings. A [sum] result is
    the value on the left or the message of the thrown error on the
    right; [writeFileSync] takes the path only, the text written being
    of no consequence here, and answers with the message if it throws. *)
Class Platform : Type := {
  path_join : string → string → string;
  existsSync : string → bool;
  readFileSync : string → string + string;
  readdirSync : string → list string + string;
  writeFileSync : string → option string;
  JSON_parse : string → json + string;
  getenv : string → option string;
  cwd : string;
  Intl_locale : string + string;
  toLowerCase : string → string;
  (** [path.join(__dirname, '..', 'locales')], the same directory from
      [src] and from [scripts] *)
  default_localesDir : string;
}.

(** What else they ask of it: [path.basename(file, ext)], and the clock
    as [new Date().toLocaleString()] reads it. *)
Class Library : Type := {
  basename : string → string → string;
  Date_toLocaleString : string;
}.

End Node.

(** ** cli-tool/src/i18n.js *)

Module I18n.
Import Js Node.

(** The fields of an [I18n] instance. [translations] is the registry,
    keyed by locale identifier. *)
Record I18n : Type := {
  locale : string;
  fallbackLocale : string;
  localesDir : string;
  translations : gmap string json;
  loadedLocales : gset string;
}.

(** A method runs on the instance and leaves a completion, the instance
    as it then is (also when it throws), and the lines it wrote with
    [console.warn]. *)
Record ran (A : Type) : Type := Ran {
  completed : completion A;
  self_after : I18n;
  warned : list string;
}.
#[global] Arguments Ran {A} completed self_after warned.
#[global] Arguments completed {A} r.
#[global] Arguments self_after {A} r.
#[global] Arguments warned {A} r.

Definition method (A : Type) : Type := I18n → ran A.

#[export] Instance method_ret : MRet method :=
  λ A (a : A) self, Ran (Normal a) self [].

#[export] Instance method_bind : MBind method :=
  λ A B (k : A → method B) (m : method A) self,
    let r := m self in
    match completed r with
    | Normal a =>
        let r' := k a (self_after r) in
        Ran (completed r') (self_after r') (warned r ++ warned r')
    | Throw message => Ran (Throw message) (self_after r) (warned r)
    end.

Definition throw {A} (message : string) : method A :=
  λ self, Ran (Throw message) self [].

Definition console_warn (line : string) : method unit :=
  λ self, Ran (Normal tt) self [line].

(** Reading the fields of [this]. *)
Definition this : method I18n := λ self, Ran (Normal self) self [].

(** [this.locale = locale] *)
Definition assign_locale (locale : string) : method unit :=
  λ self,
    Ran (Normal tt)
      {| locale := locale;
         fallbackLocale := fallbackLocale self;
         localesDir := localesDir self;
         translations := translations self;
         loadedLocales := loadedLocales self |}
      [].

(** [this.translations[locale] = parsed; this.loadedLocales.add(locale)] *)
Definition register (locale : string) (parsed : json) : method unit :=
  λ self,
    Ran (Normal tt)
      {| locale := I18n.locale self;
         fallbackLocale := fallbackLocale self;
         localesDir := localesDir self;
         translations := <[locale := parsed]> (translations self);
         loadedLocales := {[locale]} ∪ loadedLocales self |}
      [].

(** [a || b] on strings that may be [undefined]: the empty string is
    falsy. *)
Definition or_else (a : option string) (b : string) : string :=
  match a with
  | Some s => if String.eqb s "" then b else s
  | None => b
  end.

Section Resolver.
Context {platform : Platform} {host : Type} {runtime : Runtime host}.

(** The text before the first [_], [.] or [-]: [s.split(/[_.-]/)[0]]. *)
Fixpoint first_subtag (separators : list ascii) (s : string) : string :=
  match s with
  | "" => ""
  | String c rest =>
      if existsb (Ascii.eqb c) separators then ""
      else String c (first_subtag separators rest)
  end.

Definition detectDefaultLocale : string :=
  let envLocale :=
    or_else (getenv "CLAUDE_LANG")
      (or_else (getenv "LANG")
         (or_else (getenv "LANGUAGE")
            (or_else (getenv "LC_ALL") ""))) in
  if negb (String.eqb envLocale "") then
    toLowerCase (first_subtag ["_"; "."; "-"]%char envLocale)
  else
    match Intl_locale with
    | inl systemLocale => toLowerCase (first_subtag ["-"%char] systemLocale)
    | inr _ => "en"
    end.

Definition loadLocale (locale : string) : method bool :=
  self ← this;
  if decide (locale ∈ loadedLocales self) then mret true
  else
    let localeFile := path_join (localesDir self) (locale +:+ ".json") in
    if negb (existsSync localeFile) then
      if negb (String.eqb locale (fallbackLocale self)) then
        console_warn ("[i18n] Locale file not found: " +:+ locale
                      +:+ ".json, falling back to " +:+ fallbackLocale self);;
        mret false
      else throw ("Fallback locale file not found: " +:+ localeFile)
    else
      let failed (message : string) : method bool :=
        throw ("Failed to load locale " +:+ locale +:+ ": " +:+ message) in
      match readFileSync localeFile with
      | inr message => failed message
      | inl content =>
          match JSON_parse content with
          | inr message => failed message
          | inl parsed => register locale parsed;; mret true
          end
      end.

(** The options of the constructor. *)
Record Options : Type := {
  opt_locale : option string;
  opt_fallbackLocale : option string;
  opt_localesDir : option string;
}.

Definition constructor (options : Options) : ran unit :=
  let fresh :=
    {| locale := or_else (opt_locale options) detectDefaultLocale;
       fallbackLocale := or_else (opt_fallbackLocale options) "en";
       localesDir := or_else (opt_localesDir options) default_localesDir;
       translations := ∅;
       loadedLocales := ∅ |} in
  let body : method unit :=
    self ← this;
    loadLocale (locale self);;
    if negb (String.eqb (locale self) (fallbackLocale self))
    then loadLocale (fallbackLocale self);; mret tt
    else mret tt in
  body fresh.

(** [typeof obj === 'object'] on parsed data *)
Definition typeof_object (j : json) : bool :=
  match j with
  | JNull | JArr _ | JObj _ => true
  | _ => false
  end.

(** The callback of the [reduce] in [getNestedValue]. *)
Definition descend (current : option (value host)) (segment : string)
    : option (value host) :=
  match current with
  | Some c => if truthy c then get_prop c segment else None
  | None => None
  end.

Definition getNestedValue (obj : option json) (key : string) : option (value host) :=
  match obj with
  | None => None
  | Some j =>
      if negb (truthy (host := host) (Data j)) || negb (typeof_object j) then None
      else fold_left descend (split "." key) (Some (Data j))
  end.

(** [\w] *)
Definition is_word (c : ascii) : bool :=
  let n := N_of_ascii c in
  ((48 <=? n) && (n <=? 57) || (65 <=? n) && (n <=? 90)
   || (97 <=? n) && (n <=? 122) || (n =? 95))%N.

(** The longest run of [\w] at the start of [s], and what follows it. *)
Fixpoint word_run (s : string) : string * string :=
  match s with
  | String c rest =>
      if is_word c then let (name, after) := word_run rest in (String c name, after)
      else ("", s)
  | "" => ("", "")
  end.

(** [/\{(\w+)\}/] matched at the start of [s]: the captured name and
    the text after the closing brace. *)
Definition match_placeholder (s : string) : option (string * string) :=
  match s with
  | String "{" rest =>
      match word_run rest with
      | (String c name, String "}" after) => Some (String c name, after)
      | _ => None
      end
  | _ => None
  end.

Definition inspect {A} (a : A) : { b : A | a = b } := exist _ a eq_refl.

(** [s.replace(/\{(\w+)\}/g, callback)]: at each position the pattern is
    tried; a match is replaced by what the callback returns for it and
    the scan goes on after the match, never into the replacement. *)
Equations? replace_placeholders (callback : string → string → string)
    (s : string) : string by wf (String.length s) lt :=
  replace_placeholders callback "" := "";
  replace_placeholders callback (String c rest)
    with inspect (match_placeholder (String c rest)) := {
    | exist _ (Some (name, after)) found =>
        callback ("{" +:+ name +:+ "}") name
        +:+ replace_placeholders callback after;
    | exist _ None _ => String c (replace_placeholders callback rest) }.
Proof.
  all: try (simpl; lia).
  assert (∀ r n a, word_run r = (n, a) →
            String.length r = String.length n + String.length a) as Hrun.
  { induction r as [ | c' r IH ]; intros n a; simpl.
    - intros [= <- <-]. done.
    - destruct (is_word c').
      + destruct (word_run r) as [n' a'] eqn:E. intros [= <- <-]. simpl.
        by rewrite (IH _ _ eq_refl).
      + intros [= <- <-]. done. }
  unfold match_placeholder in found.
  destruct (Ascii.eqb_spec c "{"%char) as [ -> | ? ].
  - destruct (word_run rest) as [n a] eqn:E.
    destruct n as [ | c' n ]; [ done | ].
    destruct a as [ | c'' a ]; [ done | ].
    destruct (Ascii.eqb_spec c'' "}"%char) as [ -> | ? ].
    + injection found as <- <-. apply Hrun in E. simpl in *. lia.
    + by repeat (destruct c'' as [[] [] [] [] [] [] [] []]; try done).
  - by repeat (destruct c as [[] [] [] [] [] [] [] []]; try done).
Qed.

(** The parameters of a call: the own entries of the [params] object. *)
Definition interpolate (template : string) (params : list (string * json)) : string :=
  replace_placeholders
    (λ matched key,
       match get_prop (Data (JObj params)) key with
       | Some v => to_string v
       | None => matched
       end)
    template.

(** [t(key, params = {}, locale = null)]: the translation and the
    lines written with [console.warn]. *)
Definition t (self : I18n) (key : string) (params : list (string * json))
    (locale : option string) : value host * list string :=
  let targetLocale := or_else locale (I18n.locale self) in
  let translation := getNestedValue (translations self !! targetLocale) key in
  let translation :=
    match translation with
    | None =>
        if negb (String.eqb targetLocale (fallbackLocale self))
        then getNestedValue (translations self !! fallbackLocale self) key
        else None
    | Some _ => translation
    end in
  match translation with
  | None =>
      (Data (JStr key), ["[i18n] Translation missing for key: " +:+ key])
  | Some (Data (JStr template)) =>
      if (0 <? length params)%nat
      then (Data (JStr (interpolate template params)), [])
      else (Data (JStr template), [])
  | Some v => (v, [])
  end.

Definition setLanguage (locale : string) : method bool :=
  self ← this;
  if String.eqb locale (I18n.locale self) then mret true
  else
    loaded ← loadLocale locale;
    self ← this;
    if loaded || String.eqb locale (fallbackLocale self) then
      assign_locale locale;;
      mret true
    else
      console_warn ("[i18n] Failed to set language to " +:+ locale
                    +:+ ", keeping current: " +:+ I18n.locale self);;
      mret false.

Definition getLanguage (self : I18n) : string := locale self.

End Resolver.

(** What [getLocaleInfo] returns. *)
Module Info.
Record LocaleInfo (host : Type) : Type := {
  locale : string;
  name : value host;
  nativeName : value host;
  direction : value host;
  completeness : value host;
}.
#[global] Arguments locale {host} _.
#[global] Arguments name {host} _.
#[global] Arguments nativeName {host} _.
#[global] Arguments direction {host} _.
#[global] Arguments completeness {host} _.
End Info.

Section Tools.
Context {platform : Platform} {library : Library} {host : Type} {runtime : Runtime host}.

(** [getAvailableLanguages]: the list, and the lines written with
    [console.warn]. *)
Definition getAvailableLanguages (self : I18n) : list string * list string :=
  match readdirSync (localesDir self) with
  | inl files =>
      (sort (map (λ file, basename file ".json")
               (List.filter (λ file, endsWith file ".json") files)),
       [])
  | inr message =>
      ([fallbackLocale self],
       ["[i18n] Failed to read locales directory: " +:+ message])
  end.

Definition isLocaleAvailable (self : I18n) (locale : string) : bool * list string :=
  let (languages, warned) := getAvailableLanguages self in
  (includes languages locale, warned).

(** [this.translations[locale]]: the registry is a plain object, and a
    name it does not hold is looked up in what such an object
    inherits. *)
Definition registered (self : I18n) (locale : string) : option (value host) :=
  get_prop (Data (JObj (map_to_list (translations self)))) locale.

(** [meta?.[name]] *)
Definition optional_get (meta : option (value host)) (name : string)
    : option (value host) :=
  match meta with
  | None | Some (Data JNull) => None
  | Some m => get_prop m name
  end.

(** [a || b] on values, [None] standing for [undefined]. *)
Definition value_or (a : option (value host)) (b : value host) : value host :=
  match a with
  | Some v => if truthy v then v else b
  | None => b
  end.

(** [getLocaleInfo(locale = null)]; [None] is [null]. *)
Definition getLocaleInfo (self : I18n) (locale : option string)
    : option (Info.LocaleInfo host) :=
  let targetLocale := or_else locale (I18n.locale self) in
  match registered self targetLocale with
  | None => None
  | Some translations =>
      if negb (truthy translations) then None
      else
        let meta := get_prop translations "_meta" in
        Some {| Info.locale := targetLocale;
                Info.name := value_or (optional_get meta "name") (Data (JStr targetLocale));
                Info.nativeName :=
                  value_or (optional_get meta "nativeName") (Data (JStr targetLocale));
                Info.direction := value_or (optional_get meta "direction") (Data (JStr "ltr"));
                Info.completeness := value_or (optional_get meta "completeness") (Data JNull) |}
  end.

(** [this.translations = {}; this.loadedLocales.clear()] *)
Definition clear : method unit :=
  λ self,
    Ran (Normal tt)
      {| locale := I18n.locale self;
         fallbackLocale := fallbackLocale self;
         localesDir := localesDir self;
         translations := ∅;
         loadedLocales := ∅ |}
      [].

Definition reload : method unit :=
  clear;;
  self ← this;
  loadLocale (I18n.locale self);;
  if negb (String.eqb (I18n.locale self) (fallbackLocale self))
  then loadLocale (fallbackLocale self);; mret tt
  else mret tt.

End Tools.

(** [arg => arg === '--lang' || arg === '--language'] *)
Definition is_flag (arg : string) : Prop := arg = "--lang" ∨ arg = "--language".

#[export] Instance is_flag_dec arg : Decision (is_flag arg).
Proof. unfold is_flag. apply _. Defined.

(** [arg => arg.startsWith('--lang=') || arg.startsWith('--language=')] *)
Definition is_assignment (arg : string) : Prop :=
  startsWith arg "--lang=" = true ∨ startsWith arg "--language=" = true.

#[export] Instance is_assignment_dec arg : Decision (is_assignment arg).
Proof. unfold is_assignment. apply _. Defined.


End I18n.

(** *** The instance the module keeps, and the functions exported
    around it *)

Module Singleton.
Import Js Node I18n.

(** A call of an exported function: how it completes, the module's
    [instance] afterwards ([None] is [null]), and the lines written with
    [console.warn]. *)
Record called (A : Type) : Type := Called {
  returned : completion A;
  instance_after : option I18n;
  printed : list string;
}.
#[global] Arguments Called {A} returned instance_after printed.
#[global] Arguments returned {A} c.
#[global] Arguments instance_after {A} c.
#[global] Arguments printed {A} c.

Section Exports.
Context {platform : Platform} {library : Library} {host : Type} {runtime : Runtime host}.

(** [options = {}] *)
Definition no_options : Options :=
  {| opt_locale := None; opt_fallbackLocale := None; opt_localesDir := None |}.

(** [instance = new I18n(options)]: the assignment happens when the
    constructor completes. *)
Definition construct (options : Options) (instance : option I18n) : called I18n :=
  let r := constructor options in
  match completed r with
  | Normal _ => Called (Normal (self_after r)) (Some (self_after r)) (warned r)
  | Throw message => Called (Throw message) instance (warned r)
  end.

Definition getI18n (options : Options) (instance : option I18n) : called I18n :=
  match instance with
  | Some i18n => Called (Normal i18n) instance []
  | None => construct options instance
  end.

Definition init (options : Options) (instance : option I18n) : called I18n :=
  construct options instance.

(** [const i18n = getI18n(); return i18n.method(...)]: the method runs
    on the object the module holds. *)
Definition on_instance {A} (call : I18n → ran A) (instance : option I18n) : called A :=
  let got := getI18n no_options instance in
  match returned got with
  | Normal i18n =>
      let r := call i18n in
      Called (completed r) (Some (self_after r)) (printed got ++ warned r)
  | Throw message => Called (Throw message) (instance_after got) (printed got)
  end.

Definition t (key : string) (params : list (string * json))
    : option I18n → called (value host) :=
  on_instance (λ i18n, let (translation, warned) := I18n.t i18n key params None in
                       Ran (Normal translation) i18n warned).

Definition setLanguage (locale : string) : option I18n → called bool :=
  on_instance (I18n.setLanguage locale).

Definition getLanguage : option I18n → called string :=
  on_instance (λ i18n, Ran (Normal (I18n.getLanguage i18n)) i18n []).

Definition getAvailableLanguages : option I18n → called (list string) :=
  on_instance (λ i18n, let (languages, warned) := I18n.getAvailableLanguages i18n in
                       Ran (Normal languages) i18n warned).

End Exports.
End Singleton.

(** ** cli-tool/scripts/validate-translations.js *)

Module TranslationValidator.
Import Js Node.

Record TranslationValidator : Type := {
  strict : bool;
  warnOnly : bool;
  allowMissing : bool;
  generateReport : bool;
  localesDir : string;
  masterFile : string;
}.

(** The options of the constructor; an option left out reads as
    [false]. *)
Record Options : Type := {
  opt_strict : bool;
  opt_warnOnly : bool;
  opt_allowMissing : bool;
  opt_generateReport : bool;
}.

(** The full key of a segment under [prefix]:
    [prefix ? `${prefix}.${key}` : key]. *)
Definition fullKey_of (prefix key : string) : string :=
  if negb (String.eqb prefix "") then prefix +:+ "." +:+ key else key.

(** The body of the loop of [extractKeys]: the keys one entry adds. *)
Fixpoint entry_keys (prefix key : string) (value : json) {struct value}
    : list string :=
  if startsWith key "_" then []
  else
    let fullKey := fullKey_of prefix key in
    match value with
    | JObj entries =>
        sort (flat_map (λ kv, let '(k, v) := kv in entry_keys fullKey k v) entries)
    | _ => [fullKey]
    end.

(** [extractKeys(obj, prefix = '')] on the entries of [obj]. *)
Definition extractKeys (obj : list (string * json)) (prefix : string) : list string :=
  sort (flat_map (λ kv, let '(k, v) := kv in entry_keys prefix k v) obj).

(** The result of [compareKeys]. *)
Record comparison : Type := {
  language : string;
  totalKeys : nat;
  missingKeys : list string;
  extraKeys : list string;
  coverage : float;
  isComplete : bool;
}.

Definition compareKeys (masterKeys targetKeys : list string) (language : string)
    : comparison :=
  let missingKeys := List.filter (λ key, negb (includes targetKeys key)) masterKeys in
  let extraKeys := List.filter (λ key, negb (includes masterKeys key)) targetKeys in
  let coverage :=
    if (0 <? length masterKeys)%nat then
      round2
        (PrimFloat.mul
           (PrimFloat.div
              (PrimFloat.sub (number_of_nat (length targetKeys))
                 (number_of_nat (length extraKeys)))
              (number_of_nat (length masterKeys)))
           (number_of_nat 100))
    else PrimFloat.zero in
  {| language := language;
     totalKeys := length targetKeys;
     missingKeys := missingKeys;
     extraKeys := extraKeys;
     coverage := coverage;
     isComplete := (length missingKeys =? 0)%nat && (length extraKeys =? 0)%nat |}.

(** What [validate] returns. *)
Record results : Type := {
  masterKeyCount : nat;
  languages : list comparison;
}.

(** How the process can leave a call: the call returns, or
    [process.exit(code)] ends the process inside it, or it throws. *)
Inductive outcome (A : Type) : Type :=
| Returned (a : A)
| ProcessExit (code : Z)
| Thrown (message : string).
#[global] Arguments Returned {A} a.
#[global] Arguments ProcessExit {A} code.
#[global] Arguments Thrown {A} message.

(** How the process ends. *)
Inductive termination : Type :=
| Exited (code : Z)
| UnhandledRejection (message : string).

Section Validator.
Context {platform : Platform}.

Definition constructor (options : Options) : TranslationValidator :=
  {| strict := opt_strict options || false;
     warnOnly := opt_warnOnly options || false;
     allowMissing := opt_allowMissing options || false;
     generateReport := opt_generateReport options || false;
     localesDir := default_localesDir;
     masterFile := "en.json" |}.

Definition loadLanguageFile (self : TranslationValidator) (filename : string)
    : completion json :=
  let filePath := path_join (localesDir self) filename in
  if negb (existsSync filePath) then
    Throw ("Language file not found: " +:+ filePath)
  else
    let failed (message : string) : completion json :=
      Throw ("Failed to parse " +:+ filename +:+ ": " +:+ message) in
    match readFileSync filePath with
    | inr message => failed message
    | inl content =>
        match JSON_parse content with
        | inr message => failed message
        | inl data => Normal data
        end
    end.

(** [this.extractKeys(data)] on a parsed file: [Object.entries] throws a
    [TypeError] on [null]. *)
Definition extractKeys_of (data : json) : completion (list string) :=
  match Object_entries data with
  | Some entries => Normal (extractKeys entries "")
  | None => Throw "Cannot convert undefined or null to object"
  end.

(** The loop of [validate] over the language files; a file that fails
    ends the process with code 1. *)
Fixpoint validate_each (self : TranslationValidator) (masterKeys : list string)
    (languageFiles : list string) (languages : list comparison)
    : outcome (list comparison) :=
  match languageFiles with
  | [] => Returned languages
  | langFile :: rest =>
      let attempt : completion comparison :=
        langData ← loadLanguageFile self langFile;
        langKeys ← extractKeys_of langData;
        mret (compareKeys masterKeys langKeys langFile) in
      match attempt with
      | Normal comparison =>
          validate_each self masterKeys rest (languages ++ [comparison])
      | Throw _ => ProcessExit 1
      end
  end.

Definition validate (self : TranslationValidator) : outcome results :=
  let loaded : completion (list string * list string) :=
    masterData ← loadLanguageFile self (masterFile self);
    masterKeys ← extractKeys_of masterData;
    match readdirSync (localesDir self) with
    | inr message => Throw message
    | inl files =>
        mret (masterKeys,
              List.filter (λ file, endsWith file ".json"
                                   && negb (String.eqb file (masterFile self))) files)
    end in
  match loaded with
  | Throw _ => ProcessExit 1
  | Normal (masterKeys, languageFiles) =>
      if (length languageFiles =? 0)%nat then
        Returned {| masterKeyCount := length masterKeys; languages := [] |}
      else
        match validate_each self masterKeys languageFiles [] with
        | Returned languages =>
            Returned {| masterKeyCount := length masterKeys; languages := languages |}
        | ProcessExit code => ProcessExit code
        | Thrown message => Thrown message
        end
  end.

(** [saveJsonReport]: the write may throw. *)
Definition saveJsonReport (r : results) : completion unit :=
  let reportPath := path_join cwd "translation-report.json" in
  match writeFileSync reportPath with
  | Some message => Throw message
  | None => Normal tt
  end.

(** [run]; what it writes to the console does not reach the exit code
    and is left out. *)
Definition run (self : TranslationValidator) : outcome Z :=
  match validate self with
  | ProcessExit code => ProcessExit code
  | Thrown message => Thrown message
  | Returned r =>
      let saved :=
        if generateReport self then saveJsonReport r else Normal tt in
      match saved with
      | Throw message => Thrown message
      | Normal _ =>
          let hasIssues :=
            existsb (λ lang, (0 <? length (missingKeys lang))%nat
                             || (0 <? length (extraKeys lang))%nat)
              (languages r) in
          if negb hasIssues then Returned 0%Z
          else if allowMissing self then Returned 0%Z
          else if warnOnly self then Returned 0%Z
          else Returned 1%Z
      end
  end.

(** [main], given [process.argv]. *)
Definition main (argv : list string) : termination :=
  let args := drop 2 argv in
  let options :=
    {| opt_strict := includes args "--strict";
       opt_warnOnly := includes args "--warn-only";
       opt_allowMissing := includes args "--allow-missing";
       opt_generateReport := includes args "--report" |} in
  if includes args "--help" || includes args "-h" then Exited 0
  else
    match run (constructor options) with
    | Returned exitCode => Exited exitCode
    | ProcessExit code => Exited code
    | Thrown message => UnhandledRejection message
    end.

End Validator.

Section Report.
Context {library : Library} {host : Type} {runtime : Runtime host}.

(** The [reduce] that sums the issues over the languages. *)
Definition totalIssues (languages : list comparison) : nat :=
  fold_left (λ sum lang, sum + length (missingKeys lang) + length (extraKeys lang))
    languages 0.

(** The callback of the [forEach] in [generateValidationReport]: the
    lines written for one language. *)
Definition language_lines (lang : comparison) : list string :=
  [newline +:+ language lang +:+ ":";
   "- Total keys: " +:+ pretty (totalKeys lang);
   "- Missing keys: " +:+ pretty (length (missingKeys lang));
   "- Extra keys: " +:+ pretty (length (extraKeys lang));
   "- Coverage: " +:+ to_string (Data (JNum (coverage lang))) +:+ "%"]
  ++ (if (0 <? length (missingKeys lang))%nat then
        let displayCount := length (missingKeys lang) `min` 10 in
        [newline +:+ "Missing keys in " +:+ language lang +:+ " (showing "
         +:+ pretty displayCount +:+ "/" +:+ pretty (length (missingKeys lang)) +:+ "):"]
        ++ map (λ key, "  - " +:+ key) (take displayCount (missingKeys lang))
        ++ (if (displayCount <? length (missingKeys lang))%nat then
              ["  ... and " +:+ pretty (length (missingKeys lang) - displayCount)
               +:+ " more"]
            else [])
      else [])
  ++ (if (0 <? length (extraKeys lang))%nat then
        [newline +:+ "Extra keys in " +:+ language lang +:+ ":"]
        ++ map (λ key, "  + " +:+ key) (extraKeys lang)
      else []).

(** [generateValidationReport(results)]: the lines written with
    [console.log], one for each call. *)
Definition generateValidationReport (self : TranslationValidator) (results : results)
    : list string :=
  [repeat (newline +:+ "=") 50;
   "Translation Validation Report";
   repeat "=" 50;
   "Generated: " +:+ Date_toLocaleString;
   "Master: " +:+ masterFile self +:+ " (" +:+ pretty (masterKeyCount results)
   +:+ " keys)"]
  ++ (if (length (languages results) =? 0)%nat then
        [newline +:+ "No additional language files found."]
      else
        flat_map language_lines (languages results)
        ++ [newline +:+ repeat "=" 50;
            "Summary:";
            "- Languages validated: " +:+ pretty (length (languages results));
            "- Total issues found: " +:+ pretty (totalIssues (languages results));
            if (totalIssues (languages results) =? 0)%nat then
              "✅ All translations are in sync!"
            else if allowMissing self then
              "⚠️  Issues found but allowed in current mode"
            else
              "❌ Translation sync issues detected"]).

End Report.
End TranslationValidator.

(** ** The notions the properties are stated with *)

(** The key paths of a tree in the words of the specification: the
    segment lists from the root to each leaf, no segment starting with
    [_], each joined with dots, the whole sorted. *)
Module KeyPaths.
Import Js.

(** The segment lists from [node] down to each leaf below it; a node
    that is not a nested tree is a leaf. *)
Fixpoint leaf_paths (node : json) : list (list string) :=
  match node with
  | JObj entries =>
      flat_map (λ kv, let '(k, v) := kv in
                      if startsWith k "_" then []
                      else map (cons k) (leaf_paths v)) entries
  | _ => [[]]
  end.

(** The segment lists that go through one entry. *)
Definition entry_paths (k : string) (v : json) : list (list string) :=
  if startsWith k "_" then [] else map (cons k) (leaf_paths v).

Definition dot_join (segments : list string) : string :=
  String.concat "." segments.

Definition key_paths (tree : list (string * json)) : list string :=
  sort (map dot_join (leaf_paths (JObj tree))).

End KeyPaths.

(** The shape of a tree, in the words of the specification. *)
Module TreeShape.
Import Js.

(** The character [c] does not occur in [s]. *)
Definition lacks (c : ascii) (s : string) : Prop :=
  c ∉ String.list_ascii_of_string s.

(** Every segment name of the tree, at every depth of nested trees,
    satisfies [P]. *)
Fixpoint names_all (P : string → Prop) (node : json) : Prop :=
  match node with
  | JObj entries =>
      (fix each (es : list (string * json)) : Prop :=
         match es with
         | [] => True
         | (k, v) :: rest => P k ∧ names_all P v ∧ each rest
         end) entries
  | _ => True
  end.

(** The entries of every nested tree have pairwise distinct names, as
    the own properties of an object do. *)
Fixpoint names_distinct (node : json) : Prop :=
  match node with
  | JObj entries =>
      NoDup entries.*1
      ∧ (fix each (es : list (string * json)) : Prop :=
           match es with
           | [] => True
           | (_, v) :: rest => names_distinct v ∧ each rest
           end) entries
  | _ => True
  end.

(** The value reached from [node] along [segments] through the entries
    of nested trees. *)
Fixpoint walk (node : json) (segments : list string) : option json :=
  match segments with
  | [] => Some node
  | segment :: rest =>
      match node with
      | JObj entries =>
          match entry entries segment with
          | Some child => walk child rest
          | None => None
          end
      | _ => None
      end
  end.

(** The same tree with the entries of its nested trees enumerated in
    another order, at every depth: the entries keep their names, their
    values are reordered in turn, and the whole is permuted. *)
Inductive reordered : json → json → Prop :=
| reordered_same (node : json) : reordered node node
| reordered_entries (entries middle entries' : list (string * json)) :
    Forall2 (λ e m, e.1 = m.1 ∧ reordered e.2 m.2) entries middle →
    middle ≡ₚ entries' →
    reordered (JObj entries) (JObj entries').

End TreeShape.

(** Templates, in the words of the specification: literal text
    alternating with placeholders [{name}], a name being a token of
    letters, digits and underscores that is not empty. *)
Module Templates.
Import Js I18n.

Fixpoint all_word (s : string) : bool :=
  match s with
  | "" => true
  | String c rest => is_word c && all_word rest
  end.

Definition is_name (name : string) : Prop := name ≠ "" ∧ all_word name = true.

Definition placeholder (name : string) : string := "{" +:+ name +:+ "}".

(** Text in which no placeholder occurs. *)
Definition plain_text (text : string) : Prop :=
  ∀ before name after,
    is_name name → text ≠ before +:+ placeholder name +:+ after.





End Templates.

(** Outcomes of the operations. *)
Module Notions.
Import Js Node I18n TranslationValidator.


(** A target has missing or extra keys. *)
Definition has_discrepancy (lang : comparison) : Prop :=
  missingKeys lang ≠ [] ∨ extraKeys lang ≠ [].

(** The instance with another current locale. *)
Definition with_locale (x : string) (self : I18n) : I18n :=
  {| I18n.locale := x;
     I18n.fallbackLocale := I18n.fallbackLocale self;
     I18n.localesDir := I18n.localesDir self;
     I18n.translations := I18n.translations self;
     I18n.loadedLocales := I18n.loadedLocales self |}.

Section WithRuntime.
Context {host : Type} {runtime : Runtime host}.

(** What [t] makes of a value it found: a string is interpolated when
    there is at least one parameter, anything else is returned as it
    is. *)
Definition substituted (v : value host) (params : list (string * json)) : value host :=
  match v with
  | Data (JStr template) =>
      if (0 <? length params)%nat then Data (JStr (interpolate template params))
      else v
  | _ => v
  end.

End WithRuntime.
End Notions.

(** What a directory holds for a locale, and the states loading goes
    through. *)
Module Sources.
Import Js Node I18n.

Inductive source : Type :=
| Absent
| Sound (tree : json)
| Unreadable (message : string).

Section WithPlatform.
Context {platform : Platform}.

(** The file [<locale>.json] of [dir]: missing, parsed to a tree, or
    failing to be read or parsed. *)
Definition source_of (dir locale : string) : source :=
  let file := path_join dir (locale +:+ ".json") in
  if existsSync file then
    match readFileSync file with
    | inl content =>
        match JSON_parse content with
        | inl tree => Sound tree
        | inr message => Unreadable message
        end
    | inr message => Unreadable message
    end
  else Absent.

End WithPlatform.


Definition not_found_warning (locale fallback : string) : string :=
  "[i18n] Locale file not found: " +:+ locale +:+ ".json, falling back to " +:+ fallback.

(** The instance with the tree of [x] registered. *)
Definition registered_state (x : string) (tree : json) (self : I18n) : I18n :=
  {| locale := locale self;
     fallbackLocale := fallbackLocale self;
     localesDir := localesDir self;
     translations := <[x := tree]> (translations self);
     loadedLocales := {[x]} ∪ loadedLocales self |}.

(** The instance with an empty registry. *)
Definition cleared (self : I18n) : I18n :=
  {| locale := locale self;
     fallbackLocale := fallbackLocale self;
     localesDir := localesDir self;
     translations := ∅;
     loadedLocales := ∅ |}.

End Sources.

(** Sequences of calls of the exported functions. *)
Module Session.
Import Js Node I18n.


Section Serving.
Context {platform : Platform} {library : Library} {host : Type} {runtime : Runtime host}.



End Serving.


End Session.

(** The files [validate] reads. *)
Module Loading.
Import Js Node TranslationValidator.
Section WithPlatform.
Context {platform : Platform}.

(** The keys of a language file: the file loads and its keys are
    extracted. *)
Definition keys_of (self : TranslationValidator) (file : string) (keys : list string)
    : Prop :=
  ∃ data, loadLanguageFile self file = Normal data ∧ extractKeys_of data = Normal keys.

(** The language files of a listing: the JSON files other than the
    master. *)
Definition language_files (self : TranslationValidator) (files : list string)
    : list string :=
  List.filter (λ file, endsWith file ".json" && negb (String.eqb file (masterFile self)))
    files.

(** A source of the run fails: the master file does not give its
    keys, the directory cannot be listed, or a language file does not
    give its keys. *)
Definition source_fails (self : TranslationValidator) : Prop :=
  (∀ keys, ¬ keys_of self (masterFile self) keys)
  ∨ (∃ message, readdirSync (localesDir self) = inr message)
  ∨ ∃ files,
      readdirSync (localesDir self) = inl files
      ∧ Exists (λ file, ∀ keys, ¬ keys_of self file keys) (language_files self files).

End WithPlatform.
End Loading.

(** ** Concrete hosts, for the examples *)

Module Fixtures.
Import Js Node.

(** A host whose prototypes hold no property under the names used in the
    examples, and that prints nothing for what it has to display. *)
Definition plain : Runtime Empty_set :=
  {| inherited := λ _ _, None; display := λ _, "" |}.

(** A host in which an object inherits [constructor], the function
    [Object], from [Object.prototype], and that prints the function as
    Node does. *)
Inductive builtin : Type := Object_function.

Definition with_prototype : Runtime builtin :=
  {| inherited := λ v name,
       match v with
       | Data (JObj _) =>
           if String.eqb name "constructor" then Some (Host Object_function) else None
       | _ => None
       end;
     display := λ v,
       match v with
       | Host Object_function => "function Object() { [native code] }"
       | _ => ""
       end |}.

(** A disk: the files by path with their text, what [JSON.parse] makes
    of a text (a text it does not know is malformed), and the names
    [readdirSync] lists. *)
Definition disk (files : list (string * string)) (documents : list (string * json))
    (listing : list string) : Platform :=
  {| path_join := λ dir file, dir +:+ "/" +:+ file;
     existsSync := λ path, bool_decide (path ∈ files.*1);
     readFileSync := λ path,
       match list_find (λ file, file.1 = path) files with
       | Some (_, file) => inl file.2
       | None => inr ("ENOENT: no such file or directory, open " +:+ path)
       end;
     readdirSync := λ _, inl listing;
     writeFileSync := λ _, None;
     JSON_parse := λ text,
       match list_find (λ document, document.1 = text) documents with
       | Some (_, document) => inl document.2
       | None => inr "Unexpected token"
       end;
     getenv := λ _, None;
     cwd := "/work";
     Intl_locale := inl "en-US";
     toLowerCase := λ s, s;
     default_localesDir := "locales" |}.

Definition en_tree : json :=
  JObj [("_meta", JObj [("name", JStr "English")]);
        ("app", JObj [("name", JStr "Test App"); ("version", JStr "Version {version}")]);
        ("common", JObj [("yes", JStr "Yes"); ("no", JStr "No")])].

Definition ja_tree : json :=
  JObj [("app", JObj [("name", JStr "Tesuto")]);
        ("common", JObj [("yes", JStr "Hai")])].

(** [en.json] and [ja.json] are sound, [xx.json] is malformed, nothing
    else exists. *)
Definition locales : Platform :=
  disk [("locales/en.json", "EN"); ("locales/ja.json", "JA"); ("locales/xx.json", "{ invalid json")]
       [("EN", en_tree); ("JA", ja_tree)]
       ["en.json"; "ja.json"; "xx.json"].

(** Only the master and one target, which lacks keys of the master. *)
Definition two_locales : Platform :=
  disk [("locales/en.json", "EN"); ("locales/ja.json", "JA")]
       [("EN", en_tree); ("JA", ja_tree)]
       ["en.json"; "ja.json"].

(** A resolver on [locales] with both trees loaded and [ja] current. *)
Definition resolver : I18n.I18n :=
  {| I18n.locale := "ja";
     I18n.fallbackLocale := "en";
     I18n.localesDir := "locales";
     I18n.translations := <["ja" := ja_tree]> (<["en" := en_tree]> ∅);
     I18n.loadedLocales := {["ja"; "en"]} |}.


(** [path.basename] on the name of a directory entry, which holds no
    separator: the name without the extension it ends with. *)
Definition entry_basename (file ext : string) : string :=
  if endsWith file ext
  then String.substring 0 (String.length file - String.length ext) file
  else file.

Definition library : Library :=
  {| basename := entry_basename;
     Date_toLocaleString := "1/1/2025, 12:00:00 AM" |}.

End Fixtures.

(** * Properties *)

(** ** Induction over a document *)

Module JsFacts.
Import Js.

(** The entries of an object and the items of
    an array come with the property already established. *)
Lemma json_nested_ind (P : json → Prop) :
  P JNull →
  (∀ b, P (JBool b)) →
  (∀ x, P (JNum x)) →
  (∀ s, P (JStr s)) →
  (∀ items, Forall P items → P (JArr items)) →
  (∀ entries, Forall (λ kv, P kv.2) entries → P (JObj entries)) →
  ∀ j, P j.
Proof.
  intros Hnull Hbool Hnum Hstr Harr Hobj.
  fix IH 1. intros [ | b | x | s | items | entries ].
  - exact Hnull.
  - apply Hbool.
  - apply Hnum.
  - apply Hstr.
  - apply Harr. induction items as [ | j items IHitems ]; constructor.
    + apply IH.
    + exact IHitems.
  - apply Hobj. induction entries as [ | [k j] entries IHentries ]; constructor.
    + apply IH.
    + exact IHentries.
Qed.

End JsFacts.

(** ** The order of [sort] and what sorting determines *)

Module SortFacts.
Import Js.

Lemma app_cons c (a b : string) : String c a +:+ b = String c (a +:+ b).
Proof. reflexivity. Qed.

Lemma app_nil_l (a : string) : "" +:+ a = a.
Proof. reflexivity. Qed.

Lemma app_nil_r (a : string) : a +:+ "" = a.
Proof. induction a as [ | c a IH ]; [ done | ]. by rewrite app_cons, IH. Qed.

Lemma append_assoc (a b c : string) : (a +:+ b) +:+ c = a +:+ (b +:+ c).
Proof. induction a as [ | x a IH ]; [ done | ]. by rewrite !app_cons, IH. Qed.


Lemma sort_perm keys : sort keys ≡ₚ keys.
Proof. apply merge_sort_Permutation. Qed.

Lemma sort_sorted keys : StronglySorted String.le (sort keys).
Proof. apply (StronglySorted_merge_sort String.le). Qed.

Lemma elem_of_sort key keys : key ∈ sort keys ↔ key ∈ keys.
Proof. by rewrite sort_perm. Qed.

(** Sorting forgets the order its input came in. *)
Lemma sort_of_perm keys keys' : keys ≡ₚ keys' → sort keys = sort keys'.
Proof.
  intros Hperm. apply (StronglySorted_unique String.le); try apply sort_sorted.
  by rewrite !sort_perm.
Qed.

Lemma sort_nil : sort [] = [].
Proof. reflexivity. Qed.

Lemma flat_map_perm {A B} (f g : A → list B) l :
  (∀ x, x ∈ l → f x ≡ₚ g x) → flat_map f l ≡ₚ flat_map g l.
Proof.
  induction l as [ | x l IH ]; intros Hfg; simpl; [ done | ].
  rewrite (Hfg x) by left. rewrite IH; [ done | ].
  intros y Hy. apply Hfg. by right.
Qed.

End SortFacts.

(** ** [split] *)

Module SplitFacts.
Import Js TreeShape SortFacts.

Lemma lacks_cons c a s : lacks c (String a s) ↔ a ≠ c ∧ lacks c s.
Proof.
  unfold lacks. simpl. rewrite not_elem_of_cons.
  split; intros [Hne Hs]; split; congruence || done.
Qed.

Lemma split_lacks c s : lacks c s → split c s = [s].
Proof.
  induction s as [ | a s IH ]; [ done | ].
  intros [Hne Hs]%lacks_cons. simpl.
  rewrite (proj2 (Ascii.eqb_neq _ _) Hne), IH; done.
Qed.

Lemma split_app_sep c a b :
  lacks c a → split c (a +:+ String c b) = a :: split c b.
Proof.
  induction a as [ | x a IH ].
  - intros _. rewrite app_nil_l. simpl. by rewrite Ascii.eqb_refl.
  - intros [Hne Ha]%lacks_cons. rewrite app_cons. simpl.
    by rewrite (proj2 (Ascii.eqb_neq _ _) Hne), IH.
Qed.

(** Splitting the join of segments that hold no dot gives them back. *)
Lemma split_dot_join segments :
  segments ≠ [] → Forall (lacks ".") segments →
  split "." (KeyPaths.dot_join segments) = segments.
Proof.
  induction segments as [ | s [ | s' rest ] IH ]; [ done | | ]; intros _ Hall.
  - apply Forall_cons in Hall as [Hs _]. by apply split_lacks.
  - apply Forall_cons in Hall as [Hs Hrest].
    change (KeyPaths.dot_join (s :: s' :: rest))
      with (s +:+ String "." (KeyPaths.dot_join (s' :: rest))).
    rewrite split_app_sep by done. by rewrite IH.
Qed.

End SplitFacts.

(** ** [compareKeys] *)

Module CompareFacts.
Import Js TranslationValidator.

Lemma includes_elem_of keys key : includes keys key = true ↔ key ∈ keys.
Proof.
  unfold includes. rewrite existsb_exists. split.
  - intros (k & Hin & Heq). apply String.eqb_eq in Heq as ->.
    by apply list_elem_of_In.
  - intros Hin. exists key. split; [ by apply list_elem_of_In | apply String.eqb_refl ].
Qed.

Lemma filter_absent keys others :
  List.filter (λ key, negb (includes others key)) keys
  = filter (λ key, key ∉ others) keys.
Proof.
  induction keys as [ | k keys IH ]; [ done | ]. simpl.
  rewrite filter_cons. destruct (includes others k) eqn:E; simpl.
  - apply includes_elem_of in E. by rewrite decide_False by auto.
  - rewrite decide_True, IH; [ done | ].
    intros Hin. apply includes_elem_of in Hin. congruence.
Qed.

End CompareFacts.

(** C2.  For every list of master key paths and every list of target key
    paths, [compareKeys] returns: as missing keys the master paths absent
    from the target, in the order of the master list; as extra keys the
    target paths absent from the master, in the order of the target list;
    as coverage the number
    [(|targetPaths| - |extra|) / |masterPaths| * 100] computed on
    numbers and rounded to two decimal places by [toFixed(2)], and exactly
    [0] when the master list is empty; and [isComplete] is true exactly
    when both lists are empty.  In particular
    [compareKeys(["k1","k2","k3"], ["k1"])] has missing keys
    [["k2","k3"]], no extra key, coverage [33.33] and is not complete. *)
Theorem compareKeys_missing_extra_coverage
    (masterKeys targetKeys : list string) (language : string) :
  let r := TranslationValidator.compareKeys masterKeys targetKeys language in
  let master_len := Js.number_of_nat (length masterKeys) in
  let target_len := Js.number_of_nat (length targetKeys) in
  let extra_len := Js.number_of_nat (length (TranslationValidator.extraKeys r)) in
  TranslationValidator.missingKeys r = filter (λ key, key ∉ targetKeys) masterKeys
  ∧ TranslationValidator.extraKeys r = filter (λ key, key ∉ masterKeys) targetKeys
  ∧ TranslationValidator.coverage r
    = (if decide (masterKeys = []) then 0%float
       else Js.round2 ((target_len - extra_len) / master_len
                       * Js.number_of_nat 100)%float)
  ∧ (TranslationValidator.isComplete r = true
     ↔ TranslationValidator.missingKeys r = []
       ∧ TranslationValidator.extraKeys r = [])
  ∧ (let example :=
       TranslationValidator.compareKeys ["k1"; "k2"; "k3"] ["k1"] language in
     TranslationValidator.missingKeys example = ["k2"; "k3"]
     ∧ TranslationValidator.extraKeys example = []
     ∧ TranslationValidator.coverage example = 33.33%float
     ∧ TranslationValidator.isComplete example = false).
Proof.
  intros r master_len target_len extra_len. subst r master_len target_len extra_len.
  unfold TranslationValidator.compareKeys. simpl.
  rewrite !CompareFacts.filter_absent.
  split; [ done | ]. split; [ done | ]. split.
  - destruct masterKeys as [ | k masterKeys ]; [ done | ].
    by rewrite decide_False.
  - split; [ | by vm_compute ].
    rewrite andb_true_iff, !Nat.eqb_eq, !length_zero_iff_nil. done.
Qed.

(** ** [extractKeys] *)

Module ExtractFacts.
Import Js JsFacts TranslationValidator SortFacts KeyPaths.

Lemma entry_keys_unfold prefix key value :
  entry_keys prefix key value =
  if startsWith key "_" then []
  else match value with
       | JObj entries => extractKeys entries (fullKey_of prefix key)
       | _ => [fullKey_of prefix key]
       end.
Proof. by destruct value. Qed.

Lemma extractKeys_perm obj prefix :
  extractKeys obj prefix
  ≡ₚ flat_map (λ kv, let '(k, v) := kv in entry_keys prefix k v) obj.
Proof. apply sort_perm. Qed.

Lemma leaf_paths_obj entries :
  leaf_paths (JObj entries)
  = flat_map (λ kv, let '(k, v) := kv in entry_paths k v) entries.
Proof. reflexivity. Qed.

Lemma entry_paths_nonempty k v segments : segments ∈ entry_paths k v → segments ≠ [].
Proof.
  unfold entry_paths. destruct (startsWith k "_").
  - by intros ?%elem_of_nil.
  - rewrite list_elem_of_In, in_map_iff. by intros (? & <- & _).
Qed.

Lemma leaf_paths_obj_nonempty entries segments :
  segments ∈ leaf_paths (JObj entries) → segments ≠ [].
Proof.
  rewrite leaf_paths_obj, list_elem_of_In, in_flat_map.
  intros ([k v] & _ & Hin). apply list_elem_of_In in Hin.
  by eapply entry_paths_nonempty.
Qed.

Lemma dot_join_cons k segments :
  segments ≠ [] → dot_join (k :: segments) = k +:+ "." +:+ dot_join segments.
Proof. by destruct segments. Qed.

Lemma flat_map_map {A B C} (f : A → list B) (g : B → C) l :
  map g (flat_map f l) = flat_map (λ x, map g (f x)) l.
Proof.
  induction l as [ | x l IH ]; simpl; [ done | ]. by rewrite map_app, IH.
Qed.

(** Below a prefix that is not empty, the keys of an entry are its
    segment lists joined under the prefix. *)
Lemma entry_keys_under prefix k v :
  prefix ≠ "" →
  entry_keys prefix k v
  ≡ₚ map (λ segments, prefix +:+ "." +:+ dot_join segments) (entry_paths k v).
Proof.
  revert prefix k. induction v as [ | | | | | entries IH ] using json_nested_ind;
    intros prefix k Hprefix; rewrite entry_keys_unfold; unfold entry_paths;
    destruct (startsWith k "_"); try done;
    unfold fullKey_of; destruct (String.eqb_spec prefix ""); try done.
  simpl negb. cbv iota. rewrite extractKeys_perm, leaf_paths_obj.
  rewrite !flat_map_map.
  apply flat_map_perm. intros [k' v'] Hin.
  rewrite Forall_forall in IH. rewrite (IH _ Hin (prefix +:+ "." +:+ k) k').
  - rewrite !map_map. erewrite map_ext_in; [ done | ].
    intros segments Hsegs. simpl. rewrite dot_join_cons.
    + by rewrite !append_assoc.
    + eapply entry_paths_nonempty. by apply list_elem_of_In.
  - by destruct prefix.
Qed.

(** At the root the same holds with no prefix, unless an entry with the
    empty name holds a nested tree. *)
Lemma entry_keys_root k v :
  (k = "" → ∀ entries, v ≠ JObj entries) →
  entry_keys "" k v ≡ₚ map dot_join (entry_paths k v).
Proof.
  intros Hroot. rewrite entry_keys_unfold. unfold entry_paths.
  destruct (startsWith k "_") eqn:Hskip; [ done | ].
  destruct v as [ | | | | | entries ]; try done.
  assert (k ≠ "") as Hk by (intros ->; by eapply Hroot).
  change (fullKey_of "" k) with k. rewrite extractKeys_perm, leaf_paths_obj.
  rewrite !flat_map_map. apply flat_map_perm. intros [k' v'] Hin.
  rewrite entry_keys_under by done.
  rewrite !map_map. erewrite map_ext_in; [ done | ].
  intros segments Hsegs. simpl. rewrite dot_join_cons; [ done | ].
  eapply entry_paths_nonempty. by apply list_elem_of_In.
Qed.

(** The keys of a whole tree, up to their order. *)
Lemma extractKeys_root_perm tree :
  (∀ nested, ("", JObj nested) ∉ tree) →
  extractKeys tree "" ≡ₚ map dot_join (leaf_paths (JObj tree)).
Proof.
  intros Hroot. rewrite extractKeys_perm, leaf_paths_obj, flat_map_map.
  apply flat_map_perm. intros [k v] Hin.
  apply entry_keys_root. intros -> nested ->. by apply (Hroot nested).
Qed.

End ExtractFacts.

(** C3 fails on the code.  [extractKeys] tests its prefix for
    truthiness, so the empty prefix of the root and the prefix left by a
    root segment named [""] are taken for one another: on
    [{"": {"b": "x"}}] it lists [b], where the path from the root to the
    leaf is [.b].  Below a segment with a name the same loop keeps the
    empty segment, [a..b]; and with a root entry [b] beside it the
    key [b] is listed twice. *)
Theorem extractKeys_drops_empty_root_name :
  TranslationValidator.extractKeys [("", Js.JObj [("b", Js.JStr "x")])] "" = ["b"]
  ∧ KeyPaths.key_paths [("", Js.JObj [("b", Js.JStr "x")])] = [".b"]
  ∧ TranslationValidator.extractKeys
      [("a", Js.JObj [("", Js.JObj [("b", Js.JStr "x")])])] ""
    = ["a..b"]
  ∧ KeyPaths.key_paths [("a", Js.JObj [("", Js.JObj [("b", Js.JStr "x")])])] = ["a..b"]
  ∧ TranslationValidator.extractKeys
      [("", Js.JObj [("b", Js.JStr "x")]); ("b", Js.JStr "y")] ""
    = ["b"; "b"]
  ∧ KeyPaths.key_paths [("", Js.JObj [("b", Js.JStr "x")]); ("b", Js.JStr "y")]
    = [".b"; "b"].
Proof. split_and!; reflexivity. Qed.

(** C10.  For every tree, a segment whose value is a tree with no
    entries, or with only entries whose names start with [_], adds no
    key path to [extractKeys]: the segment itself is not listed, so the
    extraction is that of the tree without the segment, at every level
    (whatever the prefix), and so is every comparison made from it. *)
Theorem empty_subtree_adds_no_key
    (before after subtree : list (string * Js.json)) (segment prefix : string) :
  Forall (λ kv, Js.startsWith kv.1 "_" = true) subtree →
  let with_segment := (before ++ (segment, Js.JObj subtree) :: after)%list in
  let without := (before ++ after)%list in
  TranslationValidator.entry_keys prefix segment (Js.JObj subtree) = []
  ∧ TranslationValidator.extractKeys with_segment prefix
    = TranslationValidator.extractKeys without prefix
  ∧ ∀ otherKeys language,
      TranslationValidator.compareKeys otherKeys
        (TranslationValidator.extractKeys with_segment prefix) language
      = TranslationValidator.compareKeys otherKeys
          (TranslationValidator.extractKeys without prefix) language
      ∧ TranslationValidator.compareKeys
          (TranslationValidator.extractKeys with_segment prefix) otherKeys language
        = TranslationValidator.compareKeys
            (TranslationValidator.extractKeys without prefix) otherKeys language.
Proof.
  intros Hmeta with_segment without.
  assert (TranslationValidator.entry_keys prefix segment (Js.JObj subtree) = [])
    as Hnone.
  { rewrite ExtractFacts.entry_keys_unfold.
    destruct (Js.startsWith segment "_"); [ done | ].
    unfold TranslationValidator.extractKeys.
    assert (flat_map (λ kv, let '(k, v) := kv in
              TranslationValidator.entry_keys
                (TranslationValidator.fullKey_of prefix segment) k v) subtree = [])
      as ->; [ | done ].
    induction Hmeta as [ | [k v] subtree Hk _ IH ]; [ done | ].
    simpl in *. by rewrite ExtractFacts.entry_keys_unfold, Hk, IH. }
  assert (TranslationValidator.extractKeys with_segment prefix
          = TranslationValidator.extractKeys without prefix) as Hsame.
  { unfold TranslationValidator.extractKeys, with_segment, without.
    rewrite !flat_map_app. cbn [flat_map]. by rewrite Hnone. }
  split; [ done | ]. split; [ done | ]. intros otherKeys language.
  by rewrite Hsame.
Qed.

Lemma empty_subtree_adds_no_key_witness :
  TranslationValidator.extractKeys
    [("a", Js.JStr "x"); ("notes", Js.JObj [("_comment", Js.JStr "todo")]);
     ("c", Js.JStr "y")] "app"
  = TranslationValidator.extractKeys [("a", Js.JStr "x"); ("c", Js.JStr "y")] "app".
Proof.
  apply (empty_subtree_adds_no_key [("a", Js.JStr "x")] [("c", Js.JStr "y")]
           [("_comment", Js.JStr "todo")] "notes" "app").
  repeat constructor.
Defined.

(** ** [parseLanguageFromArgs] *)

Module ArgsFacts.
Import Js I18n Notions.



End ArgsFacts.



(** ** The exit code of the validator *)

Module ExitFacts.
Import Js Node TranslationValidator Notions.

Lemma positive_length {A} (l : list A) : (0 <? length l)%nat = true ↔ l ≠ [].
Proof. destruct l; simpl; split; try done. Qed.

Lemma hasIssues_Exists (languages : list comparison) :
  existsb (λ lang, (0 <? length (missingKeys lang))%nat
                   || (0 <? length (extraKeys lang))%nat) languages = true
  ↔ Exists has_discrepancy languages.
Proof.
  rewrite existsb_exists, Exists_exists. unfold has_discrepancy.
  split; intros (lang & Hin & Hlang); exists lang;
    (split; [ by apply list_elem_of_In | ]).
  - apply orb_true_iff in Hlang. by rewrite <- !positive_length.
  - apply orb_true_iff. by rewrite !positive_length.
Qed.

End ExitFacts.

(** ** [loadLocale] and [setLanguage] *)

Module LocaleFacts.
Import Js Node I18n Notions.

Section WithPlatform.
Context {platform : Platform}.

(** How a sequence of two steps runs. *)
Lemma bind_run {A B} (m : method A) (k : A → method B) self :
  (m ≫= k) self =
  match completed (m self) with
  | Normal a =>
      let r' := k a (self_after (m self)) in
      Ran (completed r') (self_after r') (warned (m self) ++ warned r')
  | Throw message => Ran (Throw message) (self_after (m self)) (warned (m self))
  end.
Proof. reflexivity. Qed.

(** [loadLocale] changes the instance only when it registers a tree. *)
Lemma loadLocale_cases (x : string) (self : I18n) :
  let r := loadLocale x self in
  (x ∈ loadedLocales self ∧ r = Ran (Normal true) self [])
  ∨ ((x ∉ loadedLocales self) ∧ completed r = Normal true ∧ warned r = []
     ∧ ∃ parsed, self_after r
                 = {| locale := locale self;
                      fallbackLocale := fallbackLocale self;
                      localesDir := localesDir self;
                      translations := <[x := parsed]> (translations self);
                      loadedLocales := {[x]} ∪ loadedLocales self |})
  ∨ ((x ∉ loadedLocales self) ∧ x ≠ fallbackLocale self
     ∧ completed r = Normal false ∧ self_after r = self)
  ∨ ((x ∉ loadedLocales self) ∧ self_after r = self
     ∧ ∃ message, completed r = Throw message).
Proof.
  unfold loadLocale, mbind, method_bind, this. simpl.
  destruct (decide (x ∈ loadedLocales self)) as [ Hin | Hout ]; [ by left | ].
  right. destruct (existsSync _); simpl.
  - destruct (readFileSync _) as [ content | message ]; simpl;
      [ | right; right; eauto ].
    destruct (JSON_parse content) as [ parsed | message ]; simpl;
      [ | right; right; eauto ].
    left. eauto.
  - destruct (String.eqb_spec x (fallbackLocale self)); simpl;
      right; [ right | left ]; eauto.
Qed.

(** [setLanguage] in terms of the completion of [loadLocale]. *)
Lemma setLanguage_unfold (x : string) (self : I18n) :
  setLanguage x self =
  if String.eqb x (locale self) then Ran (Normal true) self []
  else
    let r := loadLocale x self in
    match completed r with
    | Normal loaded =>
        if loaded || String.eqb x (fallbackLocale (self_after r)) then
          Ran (Normal true) (with_locale x (self_after r)) (warned r)
        else
          Ran (Normal false) (self_after r)
            (warned r ++ ["[i18n] Failed to set language to " +:+ x
                          +:+ ", keeping current: " +:+ locale (self_after r)])
    | Throw message => Ran (Throw message) (self_after r) (warned r)
    end.
Proof.
  unfold setLanguage. generalize (loadLocale x). intros load.
  unfold mbind, method_bind, this. simpl.
  destruct (String.eqb x (locale self)); [ done | ]. simpl.
  destruct (completed (load self)) as [ loaded | message ]; [ | done ].
  simpl. destruct (loaded || _); simpl; by rewrite ?app_nil_r.
Qed.

(** After a call that returns true, [x] is the current locale. *)
Lemma setLanguage_true_locale (x : string) (self : I18n) :
  completed (setLanguage x self) = Normal true →
  locale (self_after (setLanguage x self)) = x.
Proof.
  rewrite setLanguage_unfold.
  destruct (String.eqb_spec x (locale self)) as [ -> | Hne ]; [ done | ].
  generalize (loadLocale x self). intros r. simpl.
  destruct (completed r) as [ loaded | message ]; [ | done ].
  by destruct (loaded || _).
Qed.

(** A call that does not return true leaves the instance as it was. *)
Lemma setLanguage_other_same (x : string) (self : I18n) :
  completed (setLanguage x self) ≠ Normal true →
  self_after (setLanguage x self) = self.
Proof.
  rewrite setLanguage_unfold.
  destruct (String.eqb_spec x (locale self)) as [ -> | Hne ]; [ done | ].
  pose proof (loadLocale_cases x self) as Hcases. revert Hcases.
  generalize (loadLocale x self). intros r. simpl.
  intros [ [_ ->] | [ (_ & Hr & _) | [ (_ & _ & Hr & Hself) | (_ & Hself & m & Hr) ] ] ];
    simpl; try done; rewrite Hr; simpl; try done.
  by destruct (String.eqb x (fallbackLocale (self_after r))).
Qed.

(** What [loadLocale] leaves: the other fields, every locale that was
    loaded with its tree, and [x] loaded when it returns true; it
    returns false only for an [x] that is not the fallback. *)
Lemma loadLocale_frame (x : string) (self : I18n) :
  let r := loadLocale x self in
  locale (self_after r) = locale self
  ∧ fallbackLocale (self_after r) = fallbackLocale self
  ∧ localesDir (self_after r) = localesDir self
  ∧ loadedLocales self ⊆ loadedLocales (self_after r)
  ∧ (∀ other, other ∈ loadedLocales self →
       translations (self_after r) !! other = translations self !! other)
  ∧ (completed r = Normal true → x ∈ loadedLocales (self_after r))
  ∧ (completed r = Normal false → x ≠ fallbackLocale self).
Proof.
  intros r. pose proof (loadLocale_cases x self) as Hcases.
  fold r in Hcases. cbv zeta in Hcases.
  destruct Hcases
    as [ [Hin Hr] | [ (Hout & Hr & _ & parsed & Hself)
                    | [ (Hout & Hx & Hr & Hself) | (Hout & Hself & m & Hr) ] ] ].
  - rewrite Hr. simpl. by split_and!.
  - rewrite Hr, Hself. simpl. split_and!; try done.
    + set_solver.
    + intros other Hother. rewrite lookup_insert_ne; [ done | ]. by intros ->.
    + set_solver.
  - rewrite Hr, Hself. by split_and!.
  - rewrite Hr, Hself. by split_and!.
Qed.

End WithPlatform.
End LocaleFacts.

(** C6, as the code has it.  For every resolver state in which the
    fallback identifier is loaded, as construction leaves it, and every
    locale identifier [x]: [setLanguage(x)] is a no-op returning true
    when [x] equals the current locale; when [x] differs, it commits the
    change and returns true if the loader succeeds on [x] or [x] is the
    fallback identifier; when the loader reports that [x] has no source
    it leaves the resolver state unchanged and returns false; when the
    loader throws (a source that cannot be read or parsed) the error
    reaches the caller and the resolver state is unchanged; and
    [setLanguage(x)] called again with the same [x] completes as the
    first call did and leaves the state the first call left, with true
    both times when the first call returns true. *)
Theorem setLanguage_outcomes {platform : Node.Platform} (self : I18n.I18n) (x : string) :
  I18n.fallbackLocale self ∈ I18n.loadedLocales self →
  let loaded := I18n.loadLocale x self in
  let set := I18n.setLanguage x self in
  let again := I18n.setLanguage x (I18n.self_after set) in
  (x = I18n.locale self → set = I18n.Ran (Node.Normal true) self [])
  ∧ (x ≠ I18n.locale self →
     I18n.completed loaded = Node.Normal true ∨ x = I18n.fallbackLocale self →
     I18n.completed set = Node.Normal true
     ∧ I18n.self_after set = Notions.with_locale x (I18n.self_after loaded))
  ∧ (x ≠ I18n.locale self →
     I18n.completed loaded = Node.Normal false →
     I18n.completed set = Node.Normal false ∧ I18n.self_after set = self)
  ∧ (x ≠ I18n.locale self →
     ∀ message, I18n.completed loaded = Node.Throw message →
     I18n.completed set = Node.Throw message ∧ I18n.self_after set = self)
  ∧ (I18n.completed again = I18n.completed set
     ∧ I18n.self_after again = I18n.self_after set)
  ∧ (I18n.completed set = Node.Normal true →
     again = I18n.Ran (Node.Normal true) (I18n.self_after set) []).
Proof.
  intros Hfallback loaded set again.
  assert (I18n.completed set = Node.Normal true →
          again = I18n.Ran (Node.Normal true) (I18n.self_after set) []) as Htrue.
  { intros Hset. unfold again.
    rewrite (LocaleFacts.setLanguage_unfold x (I18n.self_after set)).
    unfold set. rewrite LocaleFacts.setLanguage_true_locale by done.
    by rewrite String.eqb_refl. }
  assert (x ≠ I18n.locale self →
          set = match I18n.completed loaded with
                | Node.Normal b =>
                    if b || String.eqb x (I18n.fallbackLocale (I18n.self_after loaded))
                    then I18n.Ran (Node.Normal true)
                           (Notions.with_locale x (I18n.self_after loaded))
                           (I18n.warned loaded)
                    else I18n.Ran (Node.Normal false) (I18n.self_after loaded)
                           (I18n.warned loaded
                            ++ ["[i18n] Failed to set language to " +:+ x
                                +:+ ", keeping current: "
                                +:+ I18n.locale (I18n.self_after loaded)])
                | Node.Throw message =>
                    I18n.Ran (Node.Throw message) (I18n.self_after loaded)
                      (I18n.warned loaded)
                end) as Hset.
  { intros Hne. unfold set. rewrite LocaleFacts.setLanguage_unfold.
    by rewrite (proj2 (String.eqb_neq _ _) Hne). }
  assert (I18n.completed again = I18n.completed set
          ∧ I18n.self_after again = I18n.self_after set) as Hagain.
  { pose proof (LocaleFacts.setLanguage_other_same x self) as Hsame.
    fold set in Hsame.
    destruct (I18n.completed set) as [ [ | ] | message ] eqn:Hcompleted.
    - by rewrite Htrue.
    - unfold again. rewrite Hsame by done. fold set. by split; [ | apply Hsame ].
    - unfold again. rewrite Hsame by done. fold set. by split; [ | apply Hsame ]. }
  pose proof (LocaleFacts.loadLocale_cases x self) as Hcases.
  fold loaded in Hcases. cbv zeta in Hcases.
  split_and!; try done; try apply Hagain.
  - intros ->. unfold set. rewrite LocaleFacts.setLanguage_unfold.
    by rewrite String.eqb_refl.
  - intros Hne Hor. rewrite (Hset Hne).
    destruct Hor as [ Hok | -> ]; [ by rewrite Hok | ].
    destruct Hcases as [ [_ Hr] | [ [Hout _] | [ [Hout _] | [Hout _] ] ] ];
      try done.
    by rewrite Hr.
  - intros Hne Hfalse. rewrite (Hset Hne), Hfalse.
    destruct Hcases
      as [ [_ Hr] | [ (_ & Hr & _) | [ (_ & Hx & _ & Hself) | (_ & _ & m & Hr) ] ] ];
      try congruence.
    + rewrite Hr in Hfalse. done.
    + rewrite Hself. simpl. by rewrite (proj2 (String.eqb_neq _ _) Hx).
  - intros Hne message Hthrow. rewrite (Hset Hne), Hthrow. simpl.
    split; [ done | ].
    destruct Hcases
      as [ [_ Hr] | [ (_ & Hr & _) | [ (_ & _ & Hr & _) | (_ & Hself & _) ] ] ];
      first [ done | congruence | by rewrite Hr in Hthrow ].
Qed.

Lemma setLanguage_outcomes_witness :
  I18n.completed (I18n.setLanguage (platform := Fixtures.locales) "en" Fixtures.resolver)
  = Node.Normal true
  ∧ I18n.self_after (I18n.setLanguage (platform := Fixtures.locales) "en" Fixtures.resolver)
    = Notions.with_locale "en"
        (I18n.self_after
           (I18n.loadLocale (platform := Fixtures.locales) "en" Fixtures.resolver)).
Proof.
  assert (I18n.fallbackLocale Fixtures.resolver ∈ I18n.loadedLocales Fixtures.resolver)
    as Hloaded.
  { apply elem_of_union. right. by apply elem_of_singleton. }
  destruct (setLanguage_outcomes (platform := Fixtures.locales)
              Fixtures.resolver "en" Hloaded) as (_ & Hcommit & _).
  apply Hcommit; [ discriminate | by right ].
Defined.

(** C6 as stated fails in three places: where the source of [x] is
    malformed the loader throws and so does [setLanguage], which does
    not return false; where [x] has no source, [setLanguage(x)] called
    twice returns false both times, not true; and in a state whose
    fallback was never loaded and has no source, [setLanguage] of the
    fallback identifier throws and commits nothing. *)
Lemma setLanguage_throws_or_false_twice :
  let unloaded :=
    {| I18n.locale := "ja";
       I18n.fallbackLocale := "de";
       I18n.localesDir := "locales";
       I18n.translations := {["ja" := Fixtures.ja_tree]};
       I18n.loadedLocales := {["ja"]} |} in
  I18n.completed (I18n.setLanguage (platform := Fixtures.locales) "xx" Fixtures.resolver)
  = Node.Throw "Failed to load locale xx: Unexpected token"
  ∧ I18n.completed (I18n.setLanguage (platform := Fixtures.locales) "zz" Fixtures.resolver)
    = Node.Normal false
  ∧ I18n.completed
      (I18n.setLanguage (platform := Fixtures.locales) "zz"
         (I18n.self_after
            (I18n.setLanguage (platform := Fixtures.locales) "zz" Fixtures.resolver)))
    = Node.Normal false
  ∧ I18n.completed (I18n.setLanguage (platform := Fixtures.locales) "de" unloaded)
    = Node.Throw "Fallback locale file not found: locales/de.json"
  ∧ I18n.locale
      (I18n.self_after (I18n.setLanguage (platform := Fixtures.locales) "de" unloaded))
    = "ja".
Proof. split_and!; vm_compute; reflexivity. Qed.

(** ** [t] and [getNestedValue] *)

Module ResolveFacts.
Import Js Node I18n Notions.

Section WithRuntime.
Context {host : Type} {runtime : Runtime host}.

Lemma substituted_no_params v : substituted v [] = v.
Proof. by destruct v as [ [ ] | ]. Qed.

(** [t] in terms of the two lookups. *)
Lemma t_unfold (self : I18n) key params locale :
  let target := or_else locale (I18n.locale self) in
  t self key params locale =
  match getNestedValue (translations self !! target) key with
  | Some v => (substituted v params, [])
  | None =>
      match (if negb (String.eqb target (fallbackLocale self))
             then getNestedValue (translations self !! fallbackLocale self) key
             else None) with
      | Some v => (substituted v params, [])
      | None => (Data (JStr key), ["[i18n] Translation missing for key: " +:+ key])
      end
  end.
Proof.
  intros target. unfold t. fold target.
  destruct (getNestedValue (translations self !! target) key) as [ v | ].
  - destruct v as [ [ ] | ]; simpl; try done. by destruct (0 <? length params)%nat.
  - destruct (negb _); [ | done ].
    destruct (getNestedValue _ key) as [ v | ]; [ | done ].
    destruct v as [ [ ] | ]; simpl; try done. by destruct (0 <? length params)%nat.
Qed.

End WithRuntime.
End ResolveFacts.

(** C1 fails on the code, by the defect of C4.  A path resolves in a
    tree when walking the nested trees along its segments reaches a
    value.  [common.yes.length] resolves in no tree of the resolver, yet
    [t] returns the number 3, not the key path, and writes no
    diagnostic; [a.length] does not resolve in the tree of the target
    locale and resolves in that of the fallback, yet [t] returns 3, not
    the fallback's value.  Both under every host. *)
Theorem t_returns_index_of_string_leaf {host : Type} {runtime : Js.Runtime host} :
  let tree := Js.JObj [("common", Js.JObj [("yes", Js.JStr "Yes")])] in
  let self :=
    {| I18n.locale := "en";
       I18n.fallbackLocale := "en";
       I18n.localesDir := "locales";
       I18n.translations := {["en" := tree]};
       I18n.loadedLocales := {["en"]} |} in
  let ja := Js.JObj [("a", Js.JStr "str")] in
  let en := Js.JObj [("a", Js.JObj [("length", Js.JStr "Length")])] in
  let both :=
    {| I18n.locale := "ja";
       I18n.fallbackLocale := "en";
       I18n.localesDir := "locales";
       I18n.translations := <["ja" := ja]> {["en" := en]};
       I18n.loadedLocales := {["ja"; "en"]} |} in
  TreeShape.walk tree (Js.split "." "common.yes.length") = None
  ∧ I18n.t self "common.yes.length" [] None = (Js.Data (Js.JNum 3), [])
  ∧ TreeShape.walk ja (Js.split "." "a.length") = None
  ∧ TreeShape.walk en (Js.split "." "a.length") = Some (Js.JStr "Length")
  ∧ I18n.t both "a.length" [] None = (Js.Data (Js.JNum 3), []).
Proof. split_and!; reflexivity. Qed.

(** C4 fails on the code: [getNestedValue] stops at a node that is falsy
    or lacks the segment, but it does index a string leaf that is not
    empty.  On the tree [{common: {yes: "Yes"}}] the path
    [common.yes.length] yields the number 3 and [common.yes.0] the
    string ["Y"], under every host, and [t] returns them instead of the
    key path. *)
Theorem getNestedValue_indexes_string_leaf {host : Type} {runtime : Js.Runtime host} :
  let tree := Js.JObj [("common", Js.JObj [("yes", Js.JStr "Yes")])] in
  let self :=
    {| I18n.locale := "en";
       I18n.fallbackLocale := "en";
       I18n.localesDir := "locales";
       I18n.translations := {["en" := tree]};
       I18n.loadedLocales := {["en"]} |} in
  I18n.getNestedValue (Some tree) "common.yes.length"
  = Some (Js.Data (Js.JNum 3))
  ∧ I18n.getNestedValue (Some tree) "common.yes.0"
    = Some (Js.Data (Js.JStr "Y"))
  ∧ I18n.t self "common.yes.length" [] None = (Js.Data (Js.JNum 3), [])
  ∧ I18n.t self "common.yes.0" [] None = (Js.Data (Js.JStr "Y"), []).
Proof. split_and!; reflexivity. Qed.

(** ** Key paths that resolve *)

Module RoundTripFacts.
Import Js JsFacts I18n TranslationValidator TreeShape KeyPaths.

Lemma names_all_obj P entries :
  names_all P (JObj entries)
  ↔ Forall (λ kv, P kv.1 ∧ names_all P kv.2) entries.
Proof.
  simpl. induction entries as [ | [k v] entries IH ].
  - split; [ constructor | done ].
  - rewrite Forall_cons, <- IH. simpl. tauto.
Qed.

Lemma names_distinct_obj entries :
  names_distinct (JObj entries)
  ↔ NoDup entries.*1 ∧ Forall (λ kv, names_distinct kv.2) entries.
Proof.
  simpl. apply and_iff_compat_l.
  induction entries as [ | [k v] entries IH ].
  - split; [ constructor | done ].
  - rewrite Forall_cons, <- IH. simpl. tauto.
Qed.

Lemma entry_Some entries k v :
  NoDup entries.*1 → (k, v) ∈ entries → entry entries k = Some v.
Proof.
  induction entries as [ | [k' v'] entries IH ]; simpl.
  - by intros _ ?%elem_of_nil.
  - intros [Hfresh Hnodup]%NoDup_cons [ [= <- <-] | Hin ]%elem_of_cons.
    + by rewrite String.eqb_refl.
    + destruct (String.eqb_spec k' k) as [ -> | Hne ]; [ | by apply IH ].
      destruct Hfresh. apply list_elem_of_fmap. by exists (k, v).
Qed.

Lemma elem_of_leaf_paths_obj entries segments :
  segments ∈ leaf_paths (JObj entries) →
  ∃ k v rest, (k, v) ∈ entries ∧ startsWith k "_" = false
              ∧ segments = k :: rest ∧ rest ∈ leaf_paths v.
Proof.
  rewrite ExtractFacts.leaf_paths_obj, list_elem_of_In, in_flat_map.
  intros ([k v] & Hin & Hsegs). unfold entry_paths in Hsegs.
  destruct (startsWith k "_") eqn:Hskip; [ done | ].
  apply in_map_iff in Hsegs as (rest & <- & Hrest).
  exists k, v, rest. by rewrite !list_elem_of_In.
Qed.

(** With distinct names, every segment list to a leaf can be walked. *)
Lemma leaf_paths_walk node segments :
  names_distinct node → segments ∈ leaf_paths node →
  ∃ leaf, walk node segments = Some leaf.
Proof.
  revert segments.
  induction node as [ | | | | | entries IH ] using json_nested_ind;
    intros segments Hdistinct Hsegs;
    try (apply list_elem_of_singleton in Hsegs as ->; by eexists).
  apply names_distinct_obj in Hdistinct as [Hnodup Hrec].
  apply elem_of_leaf_paths_obj in Hsegs as (k & v & rest & Hin & _ & -> & Hrest).
  simpl. rewrite (entry_Some _ _ _ Hnodup Hin).
  rewrite Forall_forall in IH, Hrec.
  by apply (IH _ Hin), Hrest; [ apply (Hrec _ Hin) ].
Qed.

Lemma leaf_paths_names P node segments :
  names_all P node → segments ∈ leaf_paths node → Forall P segments.
Proof.
  revert segments.
  induction node as [ | | | | | entries IH ] using json_nested_ind;
    intros segments Hall Hsegs;
    try (apply list_elem_of_singleton in Hsegs as ->; by constructor).
  apply names_all_obj in Hall.
  apply elem_of_leaf_paths_obj in Hsegs as (k & v & rest & Hin & _ & -> & Hrest).
  rewrite Forall_forall in IH, Hall.
  destruct (Hall _ Hin) as [Hk Hv]. constructor; [ done | ].
  by apply (IH _ Hin).
Qed.

Section WithRuntime.
Context {host : Type} {runtime : Runtime host}.


(** [getNestedValue] follows a walk through the entries of nested
    trees. *)
Lemma descend_walk node segments leaf :
  walk node segments = Some leaf →
  fold_left descend segments (Some (Data node)) = Some (Data (host := host) leaf).
Proof.
  revert node. induction segments as [ | segment rest IH ]; intros node; simpl.
  - by intros [= ->].
  - destruct node as [ | | | | | entries ]; try done.
    destruct (entry entries segment) as [ child | ] eqn:Hentry; [ | done ].
    intros Hwalk. unfold get_prop, own_property. rewrite Hentry. by apply IH.
Qed.

Lemma getNestedValue_walk entries key segments leaf :
  split "." key = segments → walk (JObj entries) segments = Some leaf →
  getNestedValue (Some (JObj entries)) key = Some (Data (host := host) leaf).
Proof. intros <- Hwalk. unfold getNestedValue. simpl. by apply descend_walk. Qed.

End WithRuntime.
End RoundTripFacts.

(** C8 fails on the code, by the defect of C3.  From
    [{"": {"b": "x"}}] the key [b] is extracted, and resolving [b]
    against that tree finds nothing: [t] returns the key path with the
    diagnostic, whether the tree inherits nothing or what an object
    does.  Below a segment with a name the empty segment is kept, and
    the key extracted, [a..b], resolves under every host. *)
Theorem extracted_path_unresolvable {host : Type} {runtime : Js.Runtime host} :
  let tree := [("", Js.JObj [("b", Js.JStr "x")])] in
  let self :=
    {| I18n.locale := "en";
       I18n.fallbackLocale := "en";
       I18n.localesDir := "locales";
       I18n.translations := {["en" := Js.JObj tree]};
       I18n.loadedLocales := {["en"]} |} in
  let below := [("a", Js.JObj [("", Js.JObj [("b", Js.JStr "x")])])] in
  let self_below :=
    {| I18n.locale := "en";
       I18n.fallbackLocale := "en";
       I18n.localesDir := "locales";
       I18n.translations := {["en" := Js.JObj below]};
       I18n.loadedLocales := {["en"]} |} in
  TranslationValidator.extractKeys tree "" = ["b"]
  ∧ I18n.getNestedValue (runtime := Fixtures.plain) (Some (Js.JObj tree)) "b" = None
  ∧ I18n.t (runtime := Fixtures.plain) self "b" [] None
    = (Js.Data (Js.JStr "b"), ["[i18n] Translation missing for key: b"])
  ∧ I18n.t (runtime := Fixtures.with_prototype) self "b" [] None
    = (Js.Data (Js.JStr "b"), ["[i18n] Translation missing for key: b"])
  ∧ TranslationValidator.extractKeys below "" = ["a..b"]
  ∧ I18n.t self_below "a..b" [] None = (Js.Data (Js.JStr "x"), []).
Proof. split_and!; reflexivity. Qed.

(** ** [interpolate] *)

Module InterpolateFacts.
Import Js I18n Templates TreeShape SortFacts SplitFacts.

Lemma replace_unfold callback s :
  replace_placeholders callback s =
  match s with
  | "" => ""
  | String c rest =>
      match match_placeholder s with
      | Some (name, after) =>
          callback (placeholder name) name +:+ replace_placeholders callback after
      | None => String c (replace_placeholders callback rest)
      end
  end.
Proof.
  destruct s as [ | c rest ]; [ by rewrite replace_placeholders_equation_1 | ].
  rewrite replace_placeholders_equation_2.
  destruct (inspect (match_placeholder (String c rest))) as [ [ [name after] | ] e ].
  - rewrite replace_placeholders_clause_2_equation_1. by rewrite e.
  - rewrite replace_placeholders_clause_2_equation_2. by rewrite e.
Qed.

(** What [word_run] splits off. *)
Lemma word_run_spec s name after :
  word_run s = (name, after) →
  s = name +:+ after ∧ all_word name = true.
Proof.
  revert name after. induction s as [ | c s IH ]; intros name after; simpl.
  - by intros [= <- <-].
  - destruct (is_word c) eqn:Hc.
    + destruct (word_run s) as [n a]. intros [= <- <-].
      destruct (IH _ _ eq_refl) as [-> Hn]. simpl. by rewrite Hc.
    + by intros [= <- <-].
Qed.

Lemma word_run_name name after :
  all_word name = true →
  after = "" ∨ (∃ c rest, after = String c rest ∧ is_word c = false) →
  word_run (name +:+ after) = (name, after).
Proof.
  intros Hname Hafter. induction name as [ | c name IH ].
  - rewrite app_nil_l. destruct Hafter as [ -> | (c & rest & -> & Hc) ]; [ done | ].
    simpl. by rewrite Hc.
  - simpl in Hname. apply andb_true_iff in Hname as [Hc Hname].
    rewrite app_cons. simpl. by rewrite Hc, IH.
Qed.

Lemma placeholder_then name after :
  placeholder name +:+ after = String "{" (name +:+ String "}" after).
Proof. unfold placeholder. by rewrite !append_assoc. Qed.

Lemma match_placeholder_name name after :
  is_name name → match_placeholder (placeholder name +:+ after) = Some (name, after).
Proof.
  intros [Hne Hword]. rewrite placeholder_then. unfold match_placeholder.
  rewrite word_run_name; [ | done | right; by eexists _, _ ].
  by destruct name.
Qed.

Lemma match_placeholder_inv s name after :
  match_placeholder s = Some (name, after) →
  s = placeholder name +:+ after ∧ is_name name.
Proof.
  destruct s as [ | c rest ]; [ done | ]. unfold match_placeholder.
  destruct (Ascii.eqb_spec c "{") as [ -> | Hc ].
  - destruct (word_run rest) as [n a] eqn:Hrun.
    apply word_run_spec in Hrun as [-> Hword].
    destruct n as [ | c' n ]; [ done | ].
    destruct a as [ | c'' a ]; [ done | ].
    destruct (Ascii.eqb_spec c'' "}") as [ -> | Hc'' ].
    + intros [= <- <-]. by rewrite placeholder_then.
    + by repeat (destruct c'' as [[] [] [] [] [] [] [] []]; try done).
  - by repeat (destruct c as [[] [] [] [] [] [] [] []]; try done).
Qed.


Lemma name_lacks_brace name : all_word name = true → lacks "{" (name +:+ "}").
Proof.
  induction name as [ | c name IH ]; simpl.
  - intros _. rewrite app_nil_l. apply lacks_cons. split; [ done | ].
    unfold lacks. simpl. apply not_elem_of_nil.
  - intros [Hc Hname]%andb_true_iff. rewrite app_cons. apply lacks_cons.
    split; [ | by apply IH ]. by intros ->.
Qed.

(** Text without [{] that starts [r ++ tail], where [tail] is empty or
    starts with [{], lies within [r]. *)
Lemma prefix_within w r tail rest :
  lacks "{" w →
  tail = "" ∨ (∃ tail', tail = String "{" tail') →
  r +:+ tail = w +:+ rest →
  ∃ post, r = w +:+ post.
Proof.
  intros Hw Htail. revert r. induction w as [ | x w IH ]; intros r Heq.
  - by exists r.
  - apply lacks_cons in Hw as [Hx Hw]. destruct r as [ | y r ].
    + rewrite app_nil_l in Heq. rewrite app_cons in Heq.
      destruct Htail as [ -> | (tail' & ->) ]; [ done | ].
      injection Heq as Hbrace _. congruence.
    + rewrite !app_cons in Heq. injection Heq as -> Heq.
      destruct (IH Hw r Heq) as [post ->]. by exists post.
Qed.

Lemma plain_text_tail c text : plain_text (String c text) → plain_text text.
Proof.
  intros Hplain before name after Hname ->.
  by apply (Hplain (String c before) name after Hname).
Qed.

(** Plain text before a placeholder, or at the end, is copied. *)
Lemma replace_plain callback text tail :
  plain_text text →
  tail = "" ∨ (∃ tail', tail = String "{" tail') →
  replace_placeholders callback (text +:+ tail)
  = text +:+ replace_placeholders callback tail.
Proof.
  intros Hplain Htail. induction text as [ | c text IH ]; [ done | ].
  rewrite !app_cons, replace_unfold.
  destruct (match_placeholder (String c (text +:+ tail)))
    as [ [name after] | ] eqn:Hmatch.
  - exfalso. apply match_placeholder_inv in Hmatch as [Heq [Hne Hword]].
    rewrite placeholder_then in Heq. injection Heq as -> Heq.
    change (name +:+ String "}" after) with (name +:+ "}" +:+ after) in Heq.
    rewrite <- append_assoc in Heq.
    destruct (prefix_within _ _ _ _ (name_lacks_brace _ Hword) Htail Heq)
      as [post ->].
    apply (Hplain "" name post); [ done | ].
    rewrite app_nil_l. unfold placeholder. by rewrite !append_assoc.
  - by rewrite IH by by eapply plain_text_tail.
Qed.

(** A placeholder is replaced by what the callback returns, and the
    scan goes on behind it. *)
Lemma replace_placeholder callback name after :
  is_name name →
  replace_placeholders callback (placeholder name +:+ after)
  = callback (placeholder name) name +:+ replace_placeholders callback after.
Proof.
  intros Hname. rewrite replace_unfold, placeholder_then.
  rewrite <- placeholder_then. by rewrite match_placeholder_name.
Qed.



Lemma lacks_app c (a b : string) : lacks c (a +:+ b) ↔ lacks c a ∧ lacks c b.
Proof.
  induction a as [ | x a IH ].
  - rewrite app_nil_l. unfold lacks at 2. simpl. rewrite elem_of_nil. tauto.
  - rewrite app_cons, !lacks_cons, IH. tauto.
Qed.

(** Text without an opening brace holds no placeholder. *)
Lemma plain_text_without_brace text : lacks "{" text → plain_text text.
Proof.
  intros Hlacks before name after _ ->.
  apply lacks_app in Hlacks as [_ Hlacks]. rewrite placeholder_then in Hlacks.
  by apply lacks_cons in Hlacks as [? _].
Qed.


End InterpolateFacts.

(** C5 fails on the code.  The callback tests [params[name] !==
    undefined], which also holds of what the parameter object inherits:
    a placeholder whose name is absent from the map and names an
    inherited property is replaced by that property as a string, not
    left untouched.  With the one parameter [name], [{constructor}] is
    replaced by the text of the function [Object], in [interpolate] and
    in [t]. *)
Theorem interpolate_replaces_inherited_name {host : Type} {runtime : Js.Runtime host} :
  (∀ params name value before after,
     Templates.is_name name →
     Templates.plain_text before →
     Js.entry params name = None →
     Js.inherited (Js.Data (Js.JObj params)) name = Some value →
     I18n.interpolate (before +:+ Templates.placeholder name +:+ after) params
     = before +:+ Js.to_string value +:+ I18n.interpolate after params)
  ∧ Js.entry [("name", Js.JStr "x")] "constructor" = None
  ∧ I18n.interpolate (runtime := Fixtures.with_prototype) "Made by {constructor}"
      [("name", Js.JStr "x")]
    = "Made by function Object() { [native code] }"
  ∧ I18n.t (runtime := Fixtures.with_prototype)
      {| I18n.locale := "en";
         I18n.fallbackLocale := "en";
         I18n.localesDir := "locales";
         I18n.translations := {["en" := Js.JObj [("credit", Js.JStr "Made by {constructor}")]]};
         I18n.loadedLocales := {["en"]} |}
      "credit" [("name", Js.JStr "x")] None
    = (Js.Data (Js.JStr "Made by function Object() { [native code] }"), []).
Proof.
  split_and!; try (vm_compute; reflexivity).
  intros params name value before after Hname Hplain Hentry Hinherited.
  unfold I18n.interpolate.
  rewrite InterpolateFacts.replace_plain;
    [ | done | right; rewrite InterpolateFacts.placeholder_then; eauto ].
  rewrite InterpolateFacts.replace_placeholder by done.
  unfold Js.get_prop. simpl. by rewrite Hentry, Hinherited.
Qed.

(** ** Further properties of the resolver *)

(** X2.  [loadLocale] only adds to the registry: the fields other than the
    registry are kept, every locale that was loaded stays loaded with
    the tree it had, and the locale asked for is loaded when the call
    returns true. *)
Theorem loadLocale_registry_grows {platform : Node.Platform}
    (x : string) (self : I18n.I18n) :
  let r := I18n.loadLocale x self in
  I18n.locale (I18n.self_after r) = I18n.locale self
  ∧ I18n.fallbackLocale (I18n.self_after r) = I18n.fallbackLocale self
  ∧ I18n.localesDir (I18n.self_after r) = I18n.localesDir self
  ∧ I18n.loadedLocales self ⊆ I18n.loadedLocales (I18n.self_after r)
  ∧ (∀ other, other ∈ I18n.loadedLocales self →
       I18n.translations (I18n.self_after r) !! other
       = I18n.translations self !! other)
  ∧ (I18n.completed r = Node.Normal true → x ∈ I18n.loadedLocales (I18n.self_after r))
  ∧ (I18n.completed r = Node.Normal false → x ≠ I18n.fallbackLocale self).
Proof. apply LocaleFacts.loadLocale_frame. Qed.


(** X4.  [toFixed(2)] rounds to the nearest hundredth, upwards on a tie: for a
    positive double [m * 2^e] the count [n] of hundredths it yields
    satisfies [100 * m * 2^e - 1/2 < n <= 100 * m * 2^e + 1/2], stated
    here over the integers with [100 * m * 2^e = num / den]. *)
Theorem toFixed2_nearest (x : float) :
  match Prim2SF x, Js.toFixed2 x with
  | S754_finite false m e, Some n =>
      let num := (100 * Z.pos m * 2 ^ Z.max e 0)%Z in
      let den := (2 ^ Z.max (- e) 0)%Z in
      (2 * num - den < 2 * n * den ∧ 2 * n * den ≤ 2 * num + den)%Z
  | S754_finite false _ _, None => False
  | _, _ => True
  end.
Proof.
  unfold Js.toFixed2. destruct (Prim2SF x) as [ | | | [ | ] m e ]; try done.
  cbv zeta.
  set (num := (100 * Z.pos m * 2 ^ Z.max e 0)%Z).
  set (den := (2 ^ Z.max (- e) 0)%Z).
  assert (0 < den)%Z as Hden by (apply Z.pow_pos_nonneg; lia).
  replace (200 * Z.pos m * 2 ^ Z.max e 0)%Z with (2 * num)%Z by (unfold num; lia).
  pose proof (Z.div_mod (2 * num + den) (2 * den) ltac:(lia)) as Hdiv.
  pose proof (Z.mod_pos_bound (2 * num + den) (2 * den) ltac:(lia)) as Hmod.
  nia.
Qed.

(** ** Further properties of the validator *)

Module ReorderFacts.
Import Js TranslationValidator TreeShape.

(** The keys below the entries of a tree, for entries that agree in
    their names and in the keys of their values. *)
Lemma extractKeys_pointwise (entries middle : list (string * json)) (prefix : string) :
  Forall2 (λ e m, e.1 = m.1
                  ∧ ∀ prefix key, entry_keys prefix key e.2 = entry_keys prefix key m.2)
    entries middle →
  extractKeys entries prefix = extractKeys middle prefix.
Proof.
  intros Hsame. unfold extractKeys. f_equal.
  induction Hsame as [ | [k v] [k' v'] entries middle [Hname Hkeys] _ IH ];
    simpl; [ done | ].
  simpl in Hname, Hkeys. subst k'. by rewrite Hkeys, IH.
Qed.

(** A tree and a reordering of it give the same keys. *)
Lemma entry_keys_reordered (value value' : json) :
  reordered value value' →
  ∀ prefix key, entry_keys prefix key value = entry_keys prefix key value'.
Proof.
  revert value'.
  induction value as [ | | | | | entries IH ] using JsFacts.json_nested_ind;
    intros value' Hreordered; try by inversion Hreordered.
  inversion Hreordered as [ | ? middle entries' Hmiddle Hperm ]; subst; [ done | ].
  intros prefix key. rewrite !ExtractFacts.entry_keys_unfold.
  destruct (startsWith key "_"); [ done | ].
  rewrite (extractKeys_pointwise entries middle).
  - unfold extractKeys. apply SortFacts.sort_of_perm. by apply Permutation_flat_map.
  - clear Hperm Hreordered. induction Hmiddle as [ | e m entries middle [Hname Hvalue] _ IHmiddle ];
      [ constructor | ].
    apply Forall_cons in IH as [IHe IHrest].
    constructor; [ | by apply IHmiddle ].
    split; [ done | ]. by apply IHe.
Qed.

End ReorderFacts.

(** X5.  The keys [extractKeys] returns are sorted and do not depend on
    the order in which the entries of the tree, and of the trees nested
    in it at any depth, are enumerated. *)
Theorem extractKeys_order_independent (tree tree' : list (string * Js.json))
    (prefix : string) :
  TreeShape.reordered (Js.JObj tree) (Js.JObj tree') →
  TranslationValidator.extractKeys tree prefix
  = TranslationValidator.extractKeys tree' prefix
  ∧ StronglySorted String.le (TranslationValidator.extractKeys tree prefix).
Proof.
  intros Hreordered. split; [ | apply SortFacts.sort_sorted ].
  pose proof (ReorderFacts.entry_keys_reordered _ _ Hreordered "" "k") as Hkeys.
  rewrite !ExtractFacts.entry_keys_unfold in Hkeys.
  change (Js.startsWith "k" "_") with false in Hkeys.
  change (TranslationValidator.fullKey_of "" "k") with "k" in Hkeys.
  inversion Hreordered as [ | ? middle ? Hmiddle Hperm ]; subst; [ done | ].
  rewrite (ReorderFacts.extractKeys_pointwise tree middle).
  - unfold TranslationValidator.extractKeys. apply SortFacts.sort_of_perm.
    by apply Permutation_flat_map.
  - eapply Forall2_impl; [ exact Hmiddle | ].
    intros e m [Hname Hvalue]. split; [ done | ].
    by apply ReorderFacts.entry_keys_reordered.
Qed.

Lemma extractKeys_order_independent_witness :
  TranslationValidator.extractKeys
    [("b", Js.JStr "y"); ("a", Js.JObj [("d", Js.JStr "v"); ("c", Js.JStr "u")])] ""
  = TranslationValidator.extractKeys
      [("a", Js.JObj [("c", Js.JStr "u"); ("d", Js.JStr "v")]); ("b", Js.JStr "y")] "".
Proof.
  apply (extractKeys_order_independent
           [("b", Js.JStr "y"); ("a", Js.JObj [("d", Js.JStr "v"); ("c", Js.JStr "u")])]
           [("a", Js.JObj [("c", Js.JStr "u"); ("d", Js.JStr "v")]); ("b", Js.JStr "y")]
           "").
  apply (TreeShape.reordered_entries _
           [("b", Js.JStr "y"); ("a", Js.JObj [("c", Js.JStr "u"); ("d", Js.JStr "v")])]).
  - repeat constructor.
    apply (TreeShape.reordered_entries _ [("d", Js.JStr "v"); ("c", Js.JStr "u")]).
    + repeat constructor.
    + apply perm_swap.
  - apply perm_swap.
Defined.

(** X6.  A comparison is complete exactly when the master and the
    target hold the same keys. *)
Theorem compareKeys_complete_iff_same_keys
    (masterKeys targetKeys : list string) (language : string) :
  TranslationValidator.isComplete
    (TranslationValidator.compareKeys masterKeys targetKeys language) = true
  ↔ ∀ key, key ∈ masterKeys ↔ key ∈ targetKeys.
Proof.
  unfold TranslationValidator.compareKeys. simpl.
  rewrite andb_true_iff, !Nat.eqb_eq, !length_zero_iff_nil.
  rewrite !CompareFacts.filter_absent. split.
  - intros [Hmissing Hextra] key. split; intros Hin.
    + destruct (decide (key ∈ targetKeys)) as [ | Hout ]; [ done | ].
      by destruct (filter_nil_not_elem_of _ _ key Hmissing Hout).
    + destruct (decide (key ∈ masterKeys)) as [ | Hout ]; [ done | ].
      by destruct (filter_nil_not_elem_of _ _ key Hextra Hout).
  - intros Hsame.
    assert (∀ (keys others : list string),
              (∀ key, key ∈ keys → key ∈ others) →
              filter (λ key, key ∉ others) keys = []) as Hnone.
    { intros keys others Hsub. induction keys as [ | k keys IH ]; [ done | ].
      rewrite filter_cons, decide_False.
      - apply IH. intros key Hkey. apply Hsub. by right.
      - intros Hout. apply Hout, Hsub. by left. }
    split; apply Hnone; intros key; apply Hsame.
Qed.

(** X7.  [validate] that returns has compared every language file the
    directory lists besides the master, once each and in the order of
    the listing, each result under the name of its file. *)
Theorem validate_compares_in_order {platform : Node.Platform}
    (self : TranslationValidator.TranslationValidator)
    (r : TranslationValidator.results) :
  TranslationValidator.validate self = TranslationValidator.Returned r →
  ∃ files,
    Node.readdirSync (TranslationValidator.localesDir self) = inl files
    ∧ map TranslationValidator.language (TranslationValidator.languages r)
      = List.filter
          (λ file, Js.endsWith file ".json"
                   && negb (String.eqb file (TranslationValidator.masterFile self)))
          files.
Proof.
  assert (∀ masterKeys files done result,
            TranslationValidator.validate_each self masterKeys files done
            = TranslationValidator.Returned result →
            map TranslationValidator.language result
            = (map TranslationValidator.language done ++ files)%list) as Heach.
  { intros masterKeys files. induction files as [ | file files IH ];
      intros done result; simpl.
    - intros [= ->]. by rewrite app_nil_r.
    - destruct (TranslationValidator.loadLanguageFile self file) as [ data | ];
        simpl; [ | done ].
      destruct (TranslationValidator.extractKeys_of data) as [ keys | ];
        simpl; [ | done ].
      intros Hrest. rewrite (IH _ _ Hrest), map_app. simpl.
      by rewrite <- app_assoc. }
  unfold TranslationValidator.validate.
  destruct (TranslationValidator.loadLanguageFile self _) as [ masterData | ];
    simpl; [ | done ].
  destruct (TranslationValidator.extractKeys_of masterData) as [ masterKeys | ];
    simpl; [ | done ].
  destruct (Node.readdirSync _) as [ files | ]; simpl; [ | done ].
  intros Hreturned. exists files. split; [ done | ].
  destruct (List.filter _ files) as [ | file rest ] eqn:Hfiles.
  - by injection Hreturned as <-.
  - change (length (file :: rest) =? 0)%nat with false in Hreturned.
    cbv iota in Hreturned.
    destruct (TranslationValidator.validate_each self masterKeys (file :: rest) [])
      as [ languages | | ] eqn:Hloop; try done.
    injection Hreturned as <-. by apply Heach in Hloop.
Qed.

Lemma validate_compares_in_order_witness :
  ∃ r files,
    TranslationValidator.validate (platform := Fixtures.two_locales)
      (TranslationValidator.constructor (platform := Fixtures.two_locales)
         (TranslationValidator.Build_Options false false false false))
    = TranslationValidator.Returned r
    ∧ Node.readdirSync (Platform := Fixtures.two_locales) "locales" = inl files
    ∧ map TranslationValidator.language (TranslationValidator.languages r)
      = List.filter (λ file, Js.endsWith file ".json" && negb (String.eqb file "en.json"))
          files.
Proof.
  assert { r | TranslationValidator.validate (platform := Fixtures.two_locales)
                 (TranslationValidator.constructor (platform := Fixtures.two_locales)
                    (TranslationValidator.Build_Options false false false false))
               = TranslationValidator.Returned r } as [r Hr].
  { eexists. vm_compute. reflexivity. }
  destruct (validate_compares_in_order (platform := Fixtures.two_locales) _ r Hr)
    as (files & Hdir & Hnames).
  by exists r, files.
Defined.

(** X8.  A template in which no placeholder occurs is returned as it
    is, whatever the parameters. *)
Theorem interpolate_plain_text {host : Type} {runtime : Js.Runtime host}
    (template : string) (params : list (string * Js.json)) :
  Templates.plain_text template → I18n.interpolate template params = template.
Proof.
  intros Hplain. unfold I18n.interpolate.
  rewrite <- (SortFacts.app_nil_r template) at 1.
  rewrite InterpolateFacts.replace_plain by auto.
  by rewrite InterpolateFacts.replace_unfold, SortFacts.app_nil_r.
Qed.

Lemma interpolate_plain_text_witness :
  I18n.interpolate (runtime := Fixtures.plain) "Test App" [("version", Js.JStr "1.0.0")]
  = "Test App".
Proof.
  apply (interpolate_plain_text (runtime := Fixtures.plain)).
  apply InterpolateFacts.plain_text_without_brace.
  apply (bool_decide_unpack _). vm_compute. exact I.
Defined.

(** * Properties of the rest of the two modules *)

(** ** Construction and reloading *)

Module ConstructFacts.
Import Js Node I18n Sources.

Section WithPlatform.
Context {platform : Platform}.

(** What [loadLocale] does for a locale that is not loaded yet, by
    what the directory holds for it. *)
Lemma loadLocale_source (x : string) (self : I18n) :
  x ∉ loadedLocales self →
  loadLocale x self =
  match source_of (localesDir self) x with
  | Sound tree => Ran (Normal true) (registered_state x tree self) []
  | Absent =>
      if String.eqb x (fallbackLocale self) then
        Ran (Throw ("Fallback locale file not found: "
                    +:+ path_join (localesDir self) (x +:+ ".json"))) self []
      else Ran (Normal false) self [not_found_warning x (fallbackLocale self)]
  | Unreadable message =>
      Ran (Throw ("Failed to load locale " +:+ x +:+ ": " +:+ message)) self []
  end.
Proof.
  intros Hout. unfold loadLocale, source_of, mbind, method_bind, this. simpl.
  rewrite decide_False by done.
  destruct (existsSync _); simpl.
  - destruct (readFileSync _) as [ content | message ]; simpl; [ | done ].
    by destruct (JSON_parse content) as [ parsed | message ].
  - by destruct (String.eqb x (fallbackLocale self)).
Qed.

(** The two loads of the constructor and of [reload], from a state whose
    registry is empty. *)
Lemma loads_from_cleared (self : I18n) :
  let loc := locale self in
  let fb := fallbackLocale self in
  let dir := localesDir self in
  let fresh := cleared self in
  (self ← this;
   loadLocale (locale self);;
   if negb (String.eqb (locale self) (fallbackLocale self))
   then loadLocale (fallbackLocale self);; mret tt
   else mret tt) fresh =
  match source_of dir loc with
  | Unreadable message =>
      Ran (Throw ("Failed to load locale " +:+ loc +:+ ": " +:+ message)) fresh []
  | Absent =>
      if String.eqb loc fb then
        Ran (Throw ("Fallback locale file not found: "
                    +:+ path_join dir (loc +:+ ".json"))) fresh []
      else
        match source_of dir fb with
        | Sound tree =>
            Ran (Normal ()) (registered_state fb tree fresh) [not_found_warning loc fb]
        | Absent =>
            Ran (Throw ("Fallback locale file not found: "
                        +:+ path_join dir (fb +:+ ".json"))) fresh
              [not_found_warning loc fb]
        | Unreadable message =>
            Ran (Throw ("Failed to load locale " +:+ fb +:+ ": " +:+ message)) fresh
              [not_found_warning loc fb]
        end
  | Sound tree =>
      if String.eqb loc fb then Ran (Normal ()) (registered_state loc tree fresh) []
      else
        match source_of dir fb with
        | Sound tree' =>
            Ran (Normal ()) (registered_state fb tree' (registered_state loc tree fresh)) []
        | Absent =>
            Ran (Throw ("Fallback locale file not found: "
                        +:+ path_join dir (fb +:+ ".json")))
              (registered_state loc tree fresh) []
        | Unreadable message =>
            Ran (Throw ("Failed to load locale " +:+ fb +:+ ": " +:+ message))
              (registered_state loc tree fresh) []
        end
  end.
Proof.
  intros loc fb dir fresh.
  rewrite LocaleFacts.bind_run.
  change (this fresh) with (Ran (Normal fresh) fresh []).
  cbn [completed self_after warned].
  rewrite LocaleFacts.bind_run.
  rewrite (loadLocale_source (locale fresh) fresh) by apply not_elem_of_empty.
  change (locale fresh) with loc. change (fallbackLocale fresh) with fb.
  change (localesDir fresh) with dir.
  destruct (source_of dir loc) as [ | tree | message ]; [ | | done ].
  - destruct (String.eqb_spec loc fb) as [ Heq | Hne ]; [ done | ].
    cbn [completed self_after warned negb].
    rewrite LocaleFacts.bind_run.
    rewrite (loadLocale_source fb fresh) by apply not_elem_of_empty.
    change (fallbackLocale fresh) with fb. change (localesDir fresh) with dir.
    destruct (source_of dir fb) as [ | tree | message ]; [ | done | done ].
    by rewrite String.eqb_refl.
  - cbn [completed self_after warned].
    destruct (String.eqb_spec loc fb) as [ Heq | Hne ]; [ done | ].
    cbn [negb]. rewrite LocaleFacts.bind_run.
    rewrite (loadLocale_source fb (registered_state loc tree fresh)).
    2:{ simpl. rewrite elem_of_union, elem_of_singleton, elem_of_empty.
        by intros [ ? | [] ]. }
    change (fallbackLocale (registered_state loc tree fresh)) with fb.
    change (localesDir (registered_state loc tree fresh)) with dir.
    destruct (source_of dir fb) as [ | tree' | message ]; [ | done | done ].
    by rewrite String.eqb_refl.
Qed.

Lemma or_else_nonempty (s d : string) : s ≠ "" → or_else (Some s) d = s.
Proof. intros Hs. unfold or_else. by rewrite (proj2 (String.eqb_neq _ _) Hs). Qed.


(** The state the constructor starts its loads from. *)
Lemma constructor_loads (options : Options) :
  constructor options =
  (self ← this;
   loadLocale (locale self);;
   if negb (String.eqb (locale self) (fallbackLocale self))
   then loadLocale (fallbackLocale self);; mret tt
   else mret tt)
    (cleared
       {| locale := or_else (opt_locale options) detectDefaultLocale;
          fallbackLocale := or_else (opt_fallbackLocale options) "en";
          localesDir := or_else (opt_localesDir options) default_localesDir;
          translations := ∅;
          loadedLocales := ∅ |}).
Proof. reflexivity. Qed.

(** The two loads, when they complete, leave the fallback loaded. *)
Lemma loads_fallback_loaded (fresh : I18n) :
  let r := (self ← this;
            loadLocale (locale self);;
            if negb (String.eqb (locale self) (fallbackLocale self))
            then loadLocale (fallbackLocale self);; mret tt
            else mret tt) (cleared fresh) in
  completed r = Normal () →
  fallbackLocale (self_after r) ∈ loadedLocales (self_after r).
Proof.
  cbv zeta. rewrite loads_from_cleared. cbv zeta.
  destruct (source_of _ (locale fresh)) as [ | tree | message ]; [ | | done ].
  - destruct (String.eqb _ _); [ done | ].
    destruct (source_of _ (fallbackLocale fresh)); [ done | | done ].
    intros _. simpl. apply elem_of_union. left. by apply elem_of_singleton.
  - destruct (String.eqb_spec (locale fresh) (fallbackLocale fresh)) as [ Heq | Hne ].
    { intros _. simpl. apply elem_of_union. left. by apply elem_of_singleton. }
    destruct (source_of _ (fallbackLocale fresh)); [ done | | done ].
    intros _. simpl. apply elem_of_union. left. by apply elem_of_singleton.
Qed.

End WithPlatform.
End ConstructFacts.




Module ReloadFacts.
Import Js Node I18n Sources.
Section WithPlatform.
Context {platform : Platform}.

(** [reload] runs the two loads from the cleared state. *)
Lemma reload_loads (self : I18n) :
  reload self =
  (self ← this;
   loadLocale (locale self);;
   if negb (String.eqb (locale self) (fallbackLocale self))
   then loadLocale (fallbackLocale self);; mret tt
   else mret tt) (cleared self).
Proof.
  unfold reload. rewrite LocaleFacts.bind_run.
  change (clear self) with (Ran (Normal ()) (cleared self) []).
  cbn [completed self_after warned].
  generalize (cleared self). intros fresh.
  match goal with |- context [ (?m ≫= ?k) fresh ] => generalize ((m ≫= k) fresh) end.
  intros r. by destruct r as [ [ ] ].
Qed.

End WithPlatform.
End ReloadFacts.

(** X1.  The constructor, when it completes, leaves the fallback locale
    loaded; [setLanguage] and [loadLocale] keep it loaded, however they
    complete; and [reload], when it completes, leaves it loaded again.
    (A [reload] that throws does not, see X12.) *)
Theorem fallback_stays_loaded {platform : Node.Platform} :
  (∀ options,
     I18n.completed (I18n.constructor options) = Node.Normal () →
     I18n.fallbackLocale (I18n.self_after (I18n.constructor options))
     ∈ I18n.loadedLocales (I18n.self_after (I18n.constructor options)))
  ∧ (∀ self x,
       I18n.fallbackLocale self ∈ I18n.loadedLocales self →
       I18n.fallbackLocale (I18n.self_after (I18n.setLanguage x self))
       ∈ I18n.loadedLocales (I18n.self_after (I18n.setLanguage x self)))
  ∧ (∀ self x,
       I18n.fallbackLocale self ∈ I18n.loadedLocales self →
       I18n.fallbackLocale (I18n.self_after (I18n.loadLocale x self))
       ∈ I18n.loadedLocales (I18n.self_after (I18n.loadLocale x self)))
  ∧ (∀ self,
       I18n.completed (I18n.reload self) = Node.Normal () →
       I18n.fallbackLocale (I18n.self_after (I18n.reload self))
       ∈ I18n.loadedLocales (I18n.self_after (I18n.reload self))).
Proof.
  split_and!.
  - intros options. rewrite ConstructFacts.constructor_loads.
    apply ConstructFacts.loads_fallback_loaded.
  - intros self x Hloaded. rewrite LocaleFacts.setLanguage_unfold.
    destruct (String.eqb x (I18n.locale self)); [ done | ].
    pose proof (LocaleFacts.loadLocale_frame x self) as Hframe. revert Hframe.
    generalize (I18n.loadLocale x self). intros r. cbv zeta.
    intros (_ & Hfb & _ & Hsub & _).
    destruct (I18n.completed r) as [ loaded | ]; simpl.
    + destruct (loaded || _); simpl; rewrite Hfb; by apply Hsub.
    + rewrite Hfb. by apply Hsub.
  - intros self x Hloaded.
    destruct (LocaleFacts.loadLocale_frame x self) as (_ & Hfb & _ & Hsub & _).
    rewrite Hfb. by apply Hsub.
  - intros self. rewrite ReloadFacts.reload_loads.
    apply ConstructFacts.loads_fallback_loaded.
Qed.

(** X11.  [reload] on an instance whose locale, fallback and directory
    are not empty does what constructing an instance with these three
    options does: the same completion, the same instance, the same
    warnings.  Whatever was loaded besides the current and the fallback
    locale is gone afterwards. *)
Theorem reload_as_constructed {platform : Node.Platform} (self : I18n.I18n) :
  I18n.locale self ≠ "" → I18n.fallbackLocale self ≠ "" → I18n.localesDir self ≠ "" →
  I18n.reload self
  = I18n.constructor
      {| I18n.opt_locale := Some (I18n.locale self);
         I18n.opt_fallbackLocale := Some (I18n.fallbackLocale self);
         I18n.opt_localesDir := Some (I18n.localesDir self) |}
  ∧ ∀ other,
      other ≠ I18n.locale self → other ≠ I18n.fallbackLocale self →
      (other ∉ I18n.loadedLocales (I18n.self_after (I18n.reload self)))
      ∧ I18n.translations (I18n.self_after (I18n.reload self)) !! other = None.
Proof.
  intros Hlocale Hfallback Hdir. split.
  - rewrite ReloadFacts.reload_loads, ConstructFacts.constructor_loads.
    cbn [I18n.opt_locale I18n.opt_fallbackLocale I18n.opt_localesDir].
    by rewrite !ConstructFacts.or_else_nonempty.
  - intros other Hother Hother'.
    rewrite ReloadFacts.reload_loads, ConstructFacts.loads_from_cleared.
    cbv zeta.
    assert (∀ x tree state,
              other ≠ x →
              (other ∉ I18n.loadedLocales state)
              ∧ I18n.translations state !! other = None →
              (other ∉ I18n.loadedLocales (Sources.registered_state x tree state))
              ∧ I18n.translations (Sources.registered_state x tree state) !! other
                = None) as Hstep.
    { intros x tree state Hx [Hout Hnone]. simpl. split.
      - rewrite elem_of_union, elem_of_singleton. by intros [ ? | ? ].
      - by rewrite lookup_insert_ne. }
    assert ((other ∉ I18n.loadedLocales (Sources.cleared self))
            ∧ I18n.translations (Sources.cleared self) !! other = None) as Hstart.
    { simpl. split; [ apply not_elem_of_empty | apply lookup_empty ]. }
    destruct (Sources.source_of _ (I18n.locale self)) as [ | tree | message ];
      [ | | done ];
      (destruct (String.eqb _ _);
       [ | destruct (Sources.source_of _ (I18n.fallbackLocale self)) ]);
      cbn [I18n.self_after]; auto.
Qed.

Lemma reload_as_constructed_witness :
  I18n.reload (platform := Fixtures.locales) Fixtures.resolver
  = I18n.constructor (platform := Fixtures.locales)
      {| I18n.opt_locale := Some "ja";
         I18n.opt_fallbackLocale := Some "en";
         I18n.opt_localesDir := Some "locales" |}.
Proof.
  apply (reload_as_constructed (platform := Fixtures.locales) Fixtures.resolver);
    discriminate.
Defined.



Module SingletonFacts.
Import Js Node I18n Session.

Section WithPlatform.
Context {platform : Platform} {library : Library} {host : Type} {runtime : Runtime host}.






End WithPlatform.
End SingletonFacts.



(** X14.  At the level of the module: after [setLanguage(x)] returns
    true, [getLanguage()] returns [x]; when the module already holds an
    instance and [setLanguage(x)] returns false or throws, the instance
    is as before and [getLanguage()] returns the locale it had. *)
Theorem module_setLanguage_then_getLanguage {platform : Node.Platform}
    (instance : option I18n.I18n) (x : string) :
  let set := Singleton.setLanguage x instance in
  let get := Singleton.getLanguage (Singleton.instance_after set) in
  (Singleton.returned set = Node.Normal true →
   get = Singleton.Called (Node.Normal x) (Singleton.instance_after set) [])
  ∧ (∀ i18n,
       instance = Some i18n →
       Singleton.returned set ≠ Node.Normal true →
       Singleton.instance_after set = instance
       ∧ get = Singleton.Called (Node.Normal (I18n.locale i18n)) instance []).
Proof.
  intros set get. split.
  - unfold get, set, Singleton.setLanguage, Singleton.on_instance.
    destruct (Singleton.getI18n Singleton.no_options instance) as [ [ i18n | ] after w ];
      cbn [Singleton.returned Singleton.instance_after Singleton.printed]; [ | done ].
    pose proof (LocaleFacts.setLanguage_true_locale x i18n) as Hlocale. revert Hlocale.
    generalize (I18n.setLanguage x i18n). intros r Hlocale Htrue.
    unfold Singleton.getLanguage, Singleton.on_instance, Singleton.getI18n.
    cbn [Singleton.returned Singleton.instance_after Singleton.printed
         I18n.completed I18n.self_after I18n.warned app].
    unfold I18n.getLanguage. by rewrite (Hlocale Htrue).
  - intros i18n -> Hother. unfold get, set in *.
    unfold Singleton.setLanguage, Singleton.on_instance, Singleton.getI18n in *.
    cbn [Singleton.returned Singleton.instance_after Singleton.printed] in *.
    pose proof (LocaleFacts.setLanguage_other_same x i18n Hother) as Hsame.
    rewrite Hsame. split; [ done | ].
    unfold Singleton.getLanguage, Singleton.on_instance, Singleton.getI18n.
    done.
Qed.

(** X15.  The module holds one instance.  [init] replaces it when the
    constructor completes, and [getI18n] then returns that instance
    whatever options it is given; an [init] that throws leaves the
    instance held before; [getI18n] constructs only when no instance is
    held, and leaves none when the constructor throws. *)
Theorem singleton_replaced_by_completed_init {platform : Node.Platform}
    (instance : option I18n.I18n) (options options' : I18n.Options) :
  let started := Singleton.init options instance in
  (∀ i18n,
     Singleton.returned started = Node.Normal i18n →
     Singleton.getI18n options' (Singleton.instance_after started)
     = Singleton.Called (Node.Normal i18n) (Some i18n) [])
  ∧ (∀ message,
       Singleton.returned started = Node.Throw message →
       Singleton.instance_after started = instance
       ∧ Singleton.returned (Singleton.getI18n options' instance)
         = Singleton.returned
             (Singleton.getI18n options' (Singleton.instance_after started)))
  ∧ (∀ i18n,
       instance = Some i18n →
       Singleton.getI18n options' instance
       = Singleton.Called (Node.Normal i18n) (Some i18n) [])
  ∧ (∀ message,
       Singleton.returned (Singleton.getI18n options None) = Node.Throw message →
       Singleton.instance_after (Singleton.getI18n options None) = None)
  ∧ (∀ i18n,
       Singleton.returned (Singleton.getI18n options None) = Node.Normal i18n →
       I18n.completed (I18n.constructor options) = Node.Normal ()
       ∧ i18n = I18n.self_after (I18n.constructor options)
       ∧ Singleton.instance_after (Singleton.getI18n options None) = Some i18n).
Proof.
  intros started. unfold started, Singleton.init, Singleton.getI18n, Singleton.construct.
  split_and!.
  - intros i18n. by destruct (I18n.completed (I18n.constructor options)); simpl; intros [= <-].
  - intros message. by destruct (I18n.completed (I18n.constructor options)).
  - by intros i18n ->.
  - intros message. by destruct (I18n.completed (I18n.constructor options)).
  - intros i18n.
    destruct (I18n.completed (I18n.constructor options)) as [ [] | ]; simpl; [ | done ].
    by intros [= <-].
Qed.

(** ** Listing and metadata *)

Module SuffixFacts.
Import Js.

Lemma rev_app_spec (s acc : string) : String.rev_app s acc = String.rev s +:+ acc.
Proof.
  unfold String.rev. revert acc. induction s as [ | c s IH ]; intros acc; simpl.
  - by rewrite SortFacts.app_nil_l.
  - rewrite IH, (IH (String c "")), SortFacts.append_assoc.
    by rewrite SortFacts.app_cons, SortFacts.app_nil_l.
Qed.

Lemma rev_cons (c : ascii) (s : string) : String.rev (String c s) = String.rev s +:+ String c "".
Proof. unfold String.rev at 1. simpl. apply rev_app_spec. Qed.

Lemma rev_append (a b : string) : String.rev (a +:+ b) = String.rev b +:+ String.rev a.
Proof.
  induction a as [ | c a IH ].
  - by rewrite SortFacts.app_nil_l, SortFacts.app_nil_r.
  - by rewrite SortFacts.app_cons, !rev_cons, IH, SortFacts.append_assoc.
Qed.

Lemma rev_involutive (s : string) : String.rev (String.rev s) = s.
Proof.
  induction s as [ | c s IH ]; [ done | ].
  by rewrite rev_cons, rev_append, IH.
Qed.

Lemma prefix_iff (p s : string) : String.prefix p s = true ↔ ∃ rest, s = p +:+ rest.
Proof.
  revert s. induction p as [ | c p IH ]; intros [ | d s ]; simpl.
  - split; [ | done ]. intros _. by exists "".
  - split; [ | done ]. intros _. exists (String d s). by rewrite SortFacts.app_nil_l.
  - split; [ done | ]. intros [rest Hrest]. by rewrite SortFacts.app_cons in Hrest.
  - destruct (ascii_dec c d) as [ <- | Hne ].
    + rewrite IH. split; intros [rest Hrest]; exists rest.
      * by rewrite SortFacts.app_cons, Hrest.
      * rewrite SortFacts.app_cons in Hrest. by injection Hrest.
    + split; [ done | ]. intros [rest Hrest].
      rewrite SortFacts.app_cons in Hrest. injection Hrest as ? _. congruence.
Qed.

(** [s.endsWith(p)] holds exactly of the strings [stem + p]. *)
Lemma endsWith_iff (s p : string) : endsWith s p = true ↔ ∃ stem, s = stem +:+ p.
Proof.
  unfold endsWith. rewrite prefix_iff. split.
  - intros [rest Hrest]. exists (String.rev rest).
    by rewrite <- (rev_involutive s), Hrest, rev_append, rev_involutive.
  - intros [stem ->]. exists (String.rev stem). apply rev_append.
Qed.

End SuffixFacts.

Module ListingFacts.
Import Js Node I18n.

Lemma entry_map_to_list (m : gmap string json) (k : string) :
  entry (map_to_list m) k = m !! k.
Proof.
  destruct (m !! k) as [ v | ] eqn:Hlookup.
  - apply RoundTripFacts.entry_Some; [ apply NoDup_fst_map_to_list | ].
    by apply elem_of_map_to_list.
  - assert (∀ l : list (string * json),
              (∀ v, (k, v) ∉ l) → entry l k = None) as Hnone.
    { induction l as [ | [k' v'] l IH ]; intros Hout; simpl; [ done | ].
      destruct (String.eqb_spec k' k) as [ -> | Hne ].
      - destruct (Hout v'). by left.
      - apply IH. intros v Hin. apply (Hout v). by right. }
    apply Hnone. intros v Hin%elem_of_map_to_list. congruence.
Qed.

End ListingFacts.

(** X16.  When the directory can be listed, and [path.basename] strips
    the extension from the names listed (as it does from the name of a
    directory entry), [getAvailableLanguages] returns, sorted, exactly
    the locales [x] for which [x.json] is listed, and
    [isLocaleAvailable(x)] says whether [x.json] is listed.  When the
    directory cannot be listed, a warning is written and the fallback
    locale is the only one available. *)
Theorem getAvailableLanguages_lists_sources {platform : Node.Platform}
    {library : Node.Library} (self : I18n.I18n) :
  (∀ files,
     Node.readdirSync (I18n.localesDir self) = inl files →
     (∀ stem, stem +:+ ".json" ∈ files →
              Node.basename (stem +:+ ".json") ".json" = stem) →
     (∀ x, x ∈ (I18n.getAvailableLanguages self).1 ↔ x +:+ ".json" ∈ files)
     ∧ StronglySorted String.le (I18n.getAvailableLanguages self).1
     ∧ (I18n.getAvailableLanguages self).2 = []
     ∧ ∀ x, I18n.isLocaleAvailable self x = (bool_decide (x +:+ ".json" ∈ files), []))
  ∧ (∀ message,
       Node.readdirSync (I18n.localesDir self) = inr message →
       I18n.getAvailableLanguages self
       = ([I18n.fallbackLocale self],
          ["[i18n] Failed to read locales directory: " +:+ message])
       ∧ ∀ x, (I18n.isLocaleAvailable self x).1 = true ↔ x = I18n.fallbackLocale self).
Proof.
  split.
  - intros files Hfiles Hbasename.
    assert (∀ x, x ∈ (I18n.getAvailableLanguages self).1 ↔ x +:+ ".json" ∈ files)
      as Hlisted.
    { intros x. unfold I18n.getAvailableLanguages. rewrite Hfiles. simpl.
      rewrite SortFacts.elem_of_sort, list_elem_of_In, in_map_iff. split.
      - intros (file & <- & [Hfile Hjson]%filter_In).
        apply SuffixFacts.endsWith_iff in Hjson as [stem ->].
        apply list_elem_of_In in Hfile. by rewrite Hbasename.
      - intros Hin. exists (x +:+ ".json"). split; [ by apply Hbasename | ].
        apply filter_In. split; [ by apply list_elem_of_In | ].
        apply SuffixFacts.endsWith_iff. by exists x. }
    split_and!; try done.
    + unfold I18n.getAvailableLanguages. rewrite Hfiles. apply SortFacts.sort_sorted.
    + unfold I18n.getAvailableLanguages. by rewrite Hfiles.
    + intros x. unfold I18n.isLocaleAvailable.
      pose proof (Hlisted x) as Hx. revert Hx.
      unfold I18n.getAvailableLanguages. rewrite Hfiles. simpl. intros Hx. f_equal.
      apply eq_true_iff_eq. by rewrite CompareFacts.includes_elem_of, bool_decide_eq_true.
  - intros message Hfails. unfold I18n.isLocaleAvailable, I18n.getAvailableLanguages.
    rewrite Hfails. split; [ done | ]. intros x. simpl.
    rewrite orb_false_r. apply String.eqb_eq.
Qed.

Lemma getAvailableLanguages_lists_sources_witness :
  I18n.isLocaleAvailable (platform := Fixtures.locales) (library := Fixtures.library)
    Fixtures.resolver "ja"
  = (true, []).
Proof.
  destruct (getAvailableLanguages_lists_sources (platform := Fixtures.locales)
              (library := Fixtures.library) Fixtures.resolver) as [Hlists _].
  destruct (Hlists ["en.json"; "ja.json"; "xx.json"] eq_refl) as (_ & _ & _ & Havailable).
  - intros stem Hstem.
    assert (stem = "en" ∨ stem = "ja" ∨ stem = "xx") as [ -> | [ -> | -> ] ]; try done.
    assert (∀ a b : string, stem +:+ ".json" = a +:+ ".json" → stem = a) as Hinj.
    { intros a _ Heq%(f_equal String.rev). rewrite !SuffixFacts.rev_append in Heq.
      apply (inj (String.app _)) in Heq.
      by rewrite <- (SuffixFacts.rev_involutive stem), Heq, SuffixFacts.rev_involutive. }
    repeat (apply elem_of_cons in Hstem as [ Hstem | Hstem ]; [ eauto using Hinj | ]).
    by apply elem_of_nil in Hstem.
  - by rewrite Havailable.
Defined.

Module InfoFacts.
Import Js Node I18n.
Section WithRuntime.
Context {host : Type} {runtime : Runtime host}.

Lemma value_or_truthy (a : option (value host)) (b : value host) :
  truthy b = true → truthy (value_or a b) = true.
Proof.
  intros Hb. unfold value_or. destruct a as [ v | ]; [ | done ].
  by destruct (truthy v) eqn:Hv.
Qed.

Lemma value_or_cases (a : option (value host)) (b : value host) :
  value_or a b = b ∨ truthy (value_or a b) = true.
Proof.
  unfold value_or. destruct a as [ v | ]; [ | by left ].
  destruct (truthy v) eqn:Hv; [ by right | by left ].
Qed.

(** What the registry holds under a name it has a tree for. *)
Lemma registered_loaded (self : I18n) (x : string) (tree : json) :
  translations self !! x = Some tree → registered self x = Some (Data tree).
Proof.
  intros Hloaded. unfold registered, get_prop, own_property.
  by rewrite ListingFacts.entry_map_to_list, Hloaded.
Qed.

Lemma registered_unloaded (self : I18n) (x : string) :
  translations self !! x = None →
  registered self x = inherited (Data (JObj (map_to_list (translations self)))) x.
Proof.
  intros Hnone. unfold registered, get_prop, own_property.
  by rewrite ListingFacts.entry_map_to_list, Hnone.
Qed.

End WithRuntime.
End InfoFacts.

(** X17.  [getLocaleInfo] returns [null] for a locale whose tree is
    falsy, and for one that is not loaded when the registry inherits
    nothing under that name.  What it returns otherwise names the target
    locale, has a truthy direction, a truthy name and native name
    unless the locale identifier is empty, and a completeness that is
    truthy or [null]: a field of [_meta] is taken when it is truthy, and
    a tree without [_meta] gives the locale identifier, ["ltr"] and
    [null]. *)
Theorem getLocaleInfo_fields {host : Type} {runtime : Js.Runtime host}
    (self : I18n.I18n) (locale : option string) :
  let target := I18n.or_else locale (I18n.locale self) in
  (∀ info,
     I18n.getLocaleInfo self locale = Some info →
     I18n.Info.locale info = target
     ∧ Js.truthy (I18n.Info.direction info) = true
     ∧ (target ≠ "" →
        Js.truthy (I18n.Info.name info) = true
        ∧ Js.truthy (I18n.Info.nativeName info) = true)
     ∧ (I18n.Info.completeness info = Js.Data Js.JNull
        ∨ Js.truthy (I18n.Info.completeness info) = true))
  ∧ (∀ tree,
       I18n.translations self !! target = Some tree →
       (I18n.getLocaleInfo self locale = None ↔ Js.truthy (host := host) (Js.Data tree) = false))
  ∧ (I18n.translations self !! target = None →
     Js.inherited (Js.Data (Js.JObj (map_to_list (I18n.translations self)))) target = None →
     I18n.getLocaleInfo self locale = None)
  ∧ (∀ entries,
       I18n.translations self !! target = Some (Js.JObj entries) →
       Js.get_prop (Js.Data (Js.JObj entries)) "_meta" = None →
       I18n.getLocaleInfo self locale
       = Some {| I18n.Info.locale := target;
                 I18n.Info.name := Js.Data (Js.JStr target);
                 I18n.Info.nativeName := Js.Data (Js.JStr target);
                 I18n.Info.direction := Js.Data (Js.JStr "ltr");
                 I18n.Info.completeness := Js.Data Js.JNull |})
  ∧ (∀ entries meta info v,
       I18n.translations self !! target = Some (Js.JObj entries) →
       Js.entry entries "_meta" = Some (Js.JObj meta) →
       I18n.getLocaleInfo self locale = Some info →
       (Js.entry meta "name" = Some v → Js.truthy (host := host) (Js.Data v) = true →
        I18n.Info.name info = Js.Data v)
       ∧ (Js.entry meta "nativeName" = Some v → Js.truthy (host := host) (Js.Data v) = true →
          I18n.Info.nativeName info = Js.Data v)
       ∧ (Js.entry meta "direction" = Some v → Js.truthy (host := host) (Js.Data v) = true →
          I18n.Info.direction info = Js.Data v)
       ∧ (Js.entry meta "completeness" = Some v →
          Js.truthy (host := host) (Js.Data v) = true →
          I18n.Info.completeness info = Js.Data v))
  ∧ I18n.getLocaleInfo (runtime := Fixtures.plain) Fixtures.resolver (Some "en")
    = Some {| I18n.Info.locale := "en";
              I18n.Info.name := Js.Data (Js.JStr "English");
              I18n.Info.nativeName := Js.Data (Js.JStr "en");
              I18n.Info.direction := Js.Data (Js.JStr "ltr");
              I18n.Info.completeness := Js.Data Js.JNull |}
  ∧ I18n.getLocaleInfo (runtime := Fixtures.plain) Fixtures.resolver (Some "missing")
    = None.
Proof.
  intros target. split_and!; try (vm_compute; reflexivity).
  - intros info. unfold I18n.getLocaleInfo. fold target.
    destruct (I18n.registered self target) as [ translations | ]; [ | done ].
    destruct (Js.truthy translations); [ | done ]. simpl. intros [= <-]. simpl.
    split_and!.
    + done.
    + by apply InfoFacts.value_or_truthy.
    + intros Htarget.
      assert (Js.truthy (host := host) (Js.Data (Js.JStr target)) = true) as Htruthy.
      { simpl. by rewrite (proj2 (String.eqb_neq _ _) Htarget). }
      split; by apply InfoFacts.value_or_truthy.
    + apply InfoFacts.value_or_cases.
  - intros tree Hloaded. unfold I18n.getLocaleInfo. fold target.
    rewrite (InfoFacts.registered_loaded _ _ _ Hloaded).
    by destruct (Js.truthy (Js.Data tree)).
  - intros Hnone Hinherits. unfold I18n.getLocaleInfo. fold target.
    by rewrite (InfoFacts.registered_unloaded _ _ Hnone), Hinherits.
  - intros entries Hloaded Hmeta. unfold I18n.getLocaleInfo. fold target.
    rewrite (InfoFacts.registered_loaded _ _ _ Hloaded).
    cbn [Js.truthy negb]. by rewrite Hmeta.
  - intros entries meta info v Hloaded Hmeta. unfold I18n.getLocaleInfo. fold target.
    rewrite (InfoFacts.registered_loaded _ _ _ Hloaded).
    change (Js.truthy (host := host) (Js.Data (Js.JObj entries))) with true.
    cbn [negb]. intros [= <-].
    cbn [I18n.Info.name I18n.Info.nativeName I18n.Info.direction
         I18n.Info.completeness].
    unfold Js.get_prop. cbn [Js.own_property]. rewrite Hmeta.
    cbn [I18n.optional_get]. unfold Js.get_prop. cbn [Js.own_property].
    split_and!; intros -> Htruthy; unfold I18n.value_or; by rewrite Htruthy.
Qed.

(** ** Detection of the default locale *)

Module DetectFacts.
Import Js Node I18n.

(** The first subtag is the text up to the first separator. *)
Lemma first_subtag_spec (separators : list ascii) (s : string) :
  Forall (λ c, TreeShape.lacks c (first_subtag separators s)) separators
  ∧ (s = first_subtag separators s
     ∨ ∃ c rest, c ∈ separators ∧ s = first_subtag separators s +:+ String c rest).
Proof.
  induction s as [ | c s [IHlacks IHsplit] ]; simpl.
  - split; [ | by left ]. apply Forall_forall. intros c _. apply not_elem_of_nil.
  - destruct (existsb (Ascii.eqb c) separators) eqn:Hsep.
    + split.
      * apply Forall_forall. intros d _. apply not_elem_of_nil.
      * right. exists c, s. split; [ | done ].
        apply existsb_exists in Hsep as (d & Hd & ->%Ascii.eqb_eq).
        by apply list_elem_of_In.
    + split.
      * rewrite Forall_forall in IHlacks. apply Forall_forall. intros d Hd.
        apply SplitFacts.lacks_cons. split; [ | by apply IHlacks ].
        intros ->. apply not_true_iff_false in Hsep. apply Hsep.
        apply existsb_exists. exists d. split; [ by apply list_elem_of_In | ].
        apply Ascii.eqb_refl.
      * destruct IHsplit as [ Hall | (d & rest & Hd & Hrest) ].
        -- left. by rewrite <- Hall.
        -- right. exists d, rest. split; [ done | ].
           by rewrite SortFacts.app_cons, <- Hrest.
Qed.

Lemma or_else_unset (a : option string) (b : string) :
  a = None ∨ a = Some "" → or_else a b = b.
Proof. by intros [ -> | -> ]. Qed.

End DetectFacts.

(** X18.  [detectDefaultLocale] takes the first of [CLAUDE_LANG], [LANG],
    [LANGUAGE], [LC_ALL] that is set and not empty, and returns the
    lower-cased text before its first [_], [.] or [-]; when none is, it
    takes the locale [Intl] reports, up to its first [-], and ["en"]
    when [Intl] throws.  The text returned holds no separator, and the
    value continues after it with a separator or not at all. *)
Theorem detectDefaultLocale_from_environment {platform : Node.Platform} :
  let names := ["CLAUDE_LANG"; "LANG"; "LANGUAGE"; "LC_ALL"] in
  let unset name := Node.getenv name = None ∨ Node.getenv name = Some "" in
  (∀ before name after value,
     names = (before ++ name :: after)%list →
     Forall unset before →
     Node.getenv name = Some value → value ≠ "" →
     I18n.detectDefaultLocale
     = Node.toLowerCase (I18n.first_subtag ["_"; "."; "-"]%char value))
  ∧ (Forall unset names →
     I18n.detectDefaultLocale
     = match Node.Intl_locale with
       | inl systemLocale => Node.toLowerCase (I18n.first_subtag ["-"%char] systemLocale)
       | inr _ => "en"
       end)
  ∧ (∀ separators value,
       Forall (λ c, TreeShape.lacks c (I18n.first_subtag separators value)) separators
       ∧ (value = I18n.first_subtag separators value
          ∨ ∃ c rest,
              c ∈ separators
              ∧ value = I18n.first_subtag separators value +:+ String c rest))
  ∧ I18n.first_subtag ["_"; "."; "-"]%char "ja_JP.UTF-8" = "ja"
  ∧ I18n.first_subtag ["_"; "."; "-"]%char "C" = "C"
  ∧ I18n.first_subtag ["_"; "."; "-"]%char "_JP" = "".
Proof.
  intros names unset. split_and!; try done.
  - intros before name after value Hnames Hunset Hvalue Hnonempty.
    assert (I18n.or_else (Some value) = λ _, value) as Hset.
    { unfold I18n.or_else. by rewrite (proj2 (String.eqb_neq _ _) Hnonempty). }
    unfold I18n.detectDefaultLocale.
    assert (∀ rest,
              I18n.or_else (Node.getenv "CLAUDE_LANG")
                (I18n.or_else (Node.getenv "LANG")
                   (I18n.or_else (Node.getenv "LANGUAGE")
                      (I18n.or_else (Node.getenv "LC_ALL") rest)))
              = value) as ->.
    { intros rest. unfold names in Hnames.
      destruct before as [ | b1 [ | b2 [ | b3 [ | b4 before ] ] ] ]; simplify_eq/=.
      - by rewrite Hvalue, Hset.
      - apply Forall_cons in Hunset as [H1 _].
        by rewrite (DetectFacts.or_else_unset _ _ H1), Hvalue, Hset.
      - apply Forall_cons in Hunset as [H1 [H2 _]%Forall_cons].
        by rewrite (DetectFacts.or_else_unset _ _ H1),
             (DetectFacts.or_else_unset _ _ H2), Hvalue, Hset.
      - apply Forall_cons in Hunset as [H1 [H2 [H3 _]%Forall_cons]%Forall_cons].
        by rewrite (DetectFacts.or_else_unset _ _ H1),
             (DetectFacts.or_else_unset _ _ H2),
             (DetectFacts.or_else_unset _ _ H3), Hvalue, Hset.
      - by destruct before. }
    by rewrite (proj2 (String.eqb_neq _ _) Hnonempty).
  - intros Hunset. unfold names in Hunset.
    apply Forall_cons in Hunset as [H1 [H2 [H3 [H4 _]%Forall_cons]%Forall_cons]%Forall_cons].
    unfold I18n.detectDefaultLocale.
    by rewrite (DetectFacts.or_else_unset _ _ H1), (DetectFacts.or_else_unset _ _ H2),
         (DetectFacts.or_else_unset _ _ H3), (DetectFacts.or_else_unset _ _ H4).
  - intros separators value. apply DetectFacts.first_subtag_spec.
Qed.

(** ** The run of the validator *)

Module ValidateFacts.
Import Js Node TranslationValidator Loading.
Section WithPlatform.
Context {platform : Platform}.

(** The loop of [validate]: it returns when every file gives its keys,
    with one comparison for each after those it started with, and ends
    the process with code 1 otherwise. *)
Lemma validate_each_outcome (self : TranslationValidator) (masterKeys : list string)
    (files : list string) (done : list comparison) :
  (∃ added,
     validate_each self masterKeys files done = Returned (done ++ added)%list
     ∧ Forall2 (λ file compared,
                  ∃ keys, keys_of self file keys
                          ∧ compared = compareKeys masterKeys keys file)
         files added)
  ∨ (validate_each self masterKeys files done = ProcessExit 1
     ∧ Exists (λ file, ∀ keys, ¬ keys_of self file keys) files).
Proof.
  revert done. induction files as [ | file files IH ]; intros done; simpl.
  - left. exists []. by rewrite app_nil_r.
  - destruct (loadLanguageFile self file) as [ data | message ] eqn:Hload; simpl.
    + destruct (extractKeys_of data) as [ keys | message ] eqn:Hkeys; simpl.
      * destruct (IH (done ++ [compareKeys masterKeys keys file])%list)
          as [ (added & Hreturned & Hadded) | [Hexit Hfails] ].
        -- left. exists (compareKeys masterKeys keys file :: added).
           rewrite Hreturned, <- app_assoc. split; [ done | ].
           constructor; [ | done ]. exists keys. split; [ | done ]. by exists data.
        -- right. split; [ done | ]. by apply Exists_cons_tl.
      * right. split; [ done | ]. apply Exists_cons_hd.
        intros keys (data' & Hload' & Hkeys'). congruence.
    + right. split; [ done | ]. apply Exists_cons_hd.
      intros keys (data' & Hload' & _). congruence.
Qed.

(** [validate] returns or ends the process with code 1. *)
Lemma validate_ends (self : TranslationValidator) :
  (∃ r, validate self = Returned r) ∨ validate self = ProcessExit 1.
Proof.
  unfold validate.
  destruct (loadLanguageFile self (masterFile self)) as [ data | ]; simpl; [ | by right ].
  destruct (extractKeys_of data) as [ masterKeys | ]; simpl; [ | by right ].
  destruct (readdirSync (localesDir self)) as [ files | ]; simpl; [ | by right ].
  destruct (length _ =? 0)%nat; [ left; eauto | ].
  match goal with
  | |- context [ validate_each self masterKeys ?languageFiles [] ] =>
      destruct (validate_each_outcome self masterKeys languageFiles [])
        as [ (added & -> & _) | [-> _] ]
  end; [ left; eauto | by right ].
Qed.

(** [run] leaves with code 0 or 1, or throws what the write of the
    report throws. *)
Lemma run_outcome (self : TranslationValidator) :
  run self = Returned 0%Z ∨ run self = Returned 1%Z ∨ run self = ProcessExit 1
  ∨ (generateReport self = true
     ∧ ∃ message,
         writeFileSync (path_join cwd "translation-report.json") = Some message
         ∧ run self = Thrown message).
Proof.
  unfold run.
  destruct (validate_ends self) as [ [r ->] | -> ]; [ | auto ].
  destruct (generateReport self); simpl.
  - unfold saveJsonReport.
    destruct (writeFileSync _) as [ message | ] eqn:Hwrite.
    + right. right. right. split; [ done | ]. by exists message.
    + destruct (existsb _ _); simpl; [ | auto ].
      destruct (allowMissing self); [ auto | ]. destruct (warnOnly self); auto.
  - destruct (existsb _ _); simpl; [ | auto ].
    destruct (allowMissing self); [ auto | ]. destruct (warnOnly self); auto.
Qed.

(** A file that does not give its keys ends the loop with code 1. *)
Lemma validate_each_exits (self : TranslationValidator) (masterKeys : list string)
    (files : list string) (done : list comparison) :
  Exists (λ file, ∀ keys, ¬ keys_of self file keys) files →
  validate_each self masterKeys files done = ProcessExit 1.
Proof.
  intros Hfails.
  destruct (validate_each_outcome self masterKeys files done)
    as [ (added & _ & Hadded) | [Hexit _] ]; [ | done ].
  apply Exists_exists in Hfails as (file & Hin & Hfile).
  apply list_elem_of_lookup in Hin as [i Hi].
  destruct (Forall2_lookup_l _ _ _ _ _ Hadded Hi) as (compared & _ & keys & Hkeys & _).
  by destruct (Hfile keys).
Qed.

(** A source that fails ends [validate] with code 1. *)
Lemma validate_exits (self : TranslationValidator) :
  source_fails self → validate self = ProcessExit 1.
Proof.
  intros Hfails. unfold validate.
  destruct (loadLanguageFile self (masterFile self)) as [ data | ] eqn:Hload;
    simpl; [ | done ].
  destruct (extractKeys_of data) as [ masterKeys | ] eqn:Hkeys; simpl; [ | done ].
  destruct Hfails as [ Hmaster | [ [message Hlist] | (files & Hlist & Hfile) ] ].
  - destruct (Hmaster masterKeys). by exists data.
  - by rewrite Hlist.
  - rewrite Hlist. simpl. fold (language_files self files).
    destruct (language_files self files) as [ | file rest ] eqn:Hlanguages.
    { by apply Exists_nil in Hfile. }
    change (length (file :: rest) =? 0)%nat with false. cbv iota.
    by rewrite (validate_each_exits self masterKeys (file :: rest) [] Hfile).
Qed.

End WithPlatform.
End ValidateFacts.

(** C7, as the code has it.  For every validation run that loads the
    master and every target (and writes its report, when one is asked
    for), the exit code of the validator is 0 when no target has missing
    or extra keys relative to the master, or when a lenient mode
    ([--warn-only] or [--allow-missing]) is active; it is 1 exactly when
    at least one target has missing or extra keys and no lenient mode is
    set.  A run in which a source fails (the master, the listing of the
    directory or a target) exits with 1 whatever the mode; and every run
    is of one of the two kinds. *)
Theorem main_exit_code {platform : Node.Platform} (argv : list string) :
  let args := drop 2 argv in
  let self :=
    TranslationValidator.constructor
      {| TranslationValidator.opt_strict := Js.includes args "--strict";
         TranslationValidator.opt_warnOnly := Js.includes args "--warn-only";
         TranslationValidator.opt_allowMissing := Js.includes args "--allow-missing";
         TranslationValidator.opt_generateReport := Js.includes args "--report" |} in
  let lenient := "--warn-only" ∈ args ∨ "--allow-missing" ∈ args in
  "--help" ∉ args → "-h" ∉ args →
  (∀ r,
     TranslationValidator.validate self = TranslationValidator.Returned r →
     ("--report" ∈ args →
      Node.writeFileSync (Node.path_join Node.cwd "translation-report.json") = None) →
     let discrepancies :=
       Exists Notions.has_discrepancy (TranslationValidator.languages r) in
     (¬ discrepancies ∨ lenient →
      TranslationValidator.main argv = TranslationValidator.Exited 0)
     ∧ (TranslationValidator.main argv = TranslationValidator.Exited 1
        ↔ discrepancies ∧ ¬ lenient))
  ∧ (Loading.source_fails self →
     TranslationValidator.main argv = TranslationValidator.Exited 1)
  ∧ ((∃ r, TranslationValidator.validate self = TranslationValidator.Returned r)
     ∨ Loading.source_fails self).
Proof.
  intros args self lenient Hhelp Hh.
  assert (TranslationValidator.main argv
          = match TranslationValidator.run self with
            | TranslationValidator.Returned exitCode => TranslationValidator.Exited exitCode
            | TranslationValidator.ProcessExit code => TranslationValidator.Exited code
            | TranslationValidator.Thrown message =>
                TranslationValidator.UnhandledRejection message
            end) as Hmain.
  { unfold TranslationValidator.main. fold args.
    rewrite <- CompareFacts.includes_elem_of in Hhelp, Hh.
    apply not_true_is_false in Hhelp, Hh. by rewrite Hhelp, Hh. }
  split_and!.
  - intros r Hvalidate Hreport discrepancies.
    assert (TranslationValidator.main argv
            = TranslationValidator.Exited
                (if decide (discrepancies ∧ ¬ lenient) then 1 else 0)) as ->.
    { rewrite Hmain. unfold TranslationValidator.run. rewrite Hvalidate.
      assert ((if TranslationValidator.generateReport self
               then TranslationValidator.saveJsonReport r else Node.Normal ())
              = Node.Normal ()) as ->.
      { simpl. rewrite orb_false_r.
        destruct (Js.includes args "--report") eqn:E; [ | done ].
        unfold TranslationValidator.saveJsonReport.
        rewrite Hreport; [ done | ]. by apply CompareFacts.includes_elem_of. }
      simpl. rewrite !orb_false_r.
      destruct (existsb _ (TranslationValidator.languages r)) eqn:Hissues; simpl.
      - apply ExitFacts.hasIssues_Exists in Hissues.
        destruct (Js.includes args "--allow-missing") eqn:Hallow.
        { apply CompareFacts.includes_elem_of in Hallow.
          rewrite decide_False; [ done | ]. unfold lenient. tauto. }
        destruct (Js.includes args "--warn-only") eqn:Hwarn.
        { apply CompareFacts.includes_elem_of in Hwarn.
          rewrite decide_False; [ done | ]. unfold lenient. tauto. }
        rewrite decide_True; [ done | ]. split; [ done | ].
        unfold lenient. rewrite <- !CompareFacts.includes_elem_of.
        rewrite Hallow, Hwarn. intros [ ? | ? ]; done.
      - rewrite decide_False; [ done | ]. intros [Hd _].
        apply ExitFacts.hasIssues_Exists in Hd. unfold discrepancies in Hd.
        congruence. }
    split.
    + intros Hzero. rewrite decide_False; [ done | ]. tauto.
    + case_decide; split; try done; by intros [= ].
  - intros Hfails. rewrite Hmain. unfold TranslationValidator.run.
    by rewrite (ValidateFacts.validate_exits self Hfails).
  - clearbody self.
    destruct (ValidateFacts.validate_ends self) as [ Hreturns | Hexits ]; [ by left | ].
    right. revert Hexits. unfold TranslationValidator.validate, Loading.source_fails.
    destruct (TranslationValidator.loadLanguageFile self
                (TranslationValidator.masterFile self)) as [ data | ] eqn:Hload; simpl.
    2:{ intros _. left. intros keys (data' & Hload' & _). congruence. }
    destruct (TranslationValidator.extractKeys_of data) as [ masterKeys | ] eqn:Hkeys;
      simpl.
    2:{ intros _. left. intros keys (data' & Hload' & Hkeys'). congruence. }
    destruct (Node.readdirSync (TranslationValidator.localesDir self))
      as [ files | message ] eqn:Hfiles; simpl.
    2:{ intros _. right. left. eauto. }
    fold (Loading.language_files self files).
    destruct (Loading.language_files self files) as [ | file rest ] eqn:Hlanguages;
      [ done | ].
    change (length (file :: rest) =? 0)%nat with false. cbv iota.
    destruct (ValidateFacts.validate_each_outcome self masterKeys (file :: rest) [])
      as [ (added & -> & _) | [_ Hfails] ]; [ done | ].
    intros _. right. right. exists files. split; [ done | ]. by rewrite Hlanguages.
Qed.

Lemma main_exit_code_witness :
  TranslationValidator.main (platform := Fixtures.two_locales)
    ["node"; "validate-translations.js"; "--warn-only"]
  = TranslationValidator.Exited 0.
Proof.
  assert ("--help" ∉ (drop 2 ["node"; "validate-translations.js"; "--warn-only"]))
    as Hhelp by (by intros [ [= ] | ?%elem_of_nil ]%elem_of_cons).
  assert ("-h" ∉ (drop 2 ["node"; "validate-translations.js"; "--warn-only"]))
    as Hh by (by intros [ [= ] | ?%elem_of_nil ]%elem_of_cons).
  destruct (main_exit_code (platform := Fixtures.two_locales)
              ["node"; "validate-translations.js"; "--warn-only"] Hhelp Hh)
    as (Hreturned & _ & _).
  eapply Hreturned.
  - vm_compute. reflexivity.
  - intros _. reflexivity.
  - right. left. by constructor.
Defined.

(** C7 as stated fails on a run that cannot load a source: with a
    malformed target the exit code is 1 although [--warn-only], or
    [--allow-missing], is given. *)
Lemma main_exit_code_malformed_target :
  TranslationValidator.main (platform := Fixtures.locales)
    ["node"; "validate-translations.js"; "--warn-only"]
  = TranslationValidator.Exited 1
  ∧ TranslationValidator.main (platform := Fixtures.locales)
      ["node"; "validate-translations.js"; "--allow-missing"]
    = TranslationValidator.Exited 1.
Proof. split; vm_compute; reflexivity. Qed.

(** X19.  [validate] either returns or ends the process with code 1.
    It returns when the master file gives its keys, the directory can
    be listed and every language file gives its keys; the result then
    counts the master keys and holds, for each language file in turn,
    [compareKeys] of the master keys and the keys of that file.  It
    exits with 1 when the master, the listing or one language file
    fails. *)
Theorem validate_returns_or_exits {platform : Node.Platform}
    (self : TranslationValidator.TranslationValidator) :
  (∃ masterKeys files compared,
     Loading.keys_of self (TranslationValidator.masterFile self) masterKeys
     ∧ Node.readdirSync (TranslationValidator.localesDir self) = inl files
     ∧ Forall2 (λ file compared,
                  ∃ keys, Loading.keys_of self file keys
                          ∧ compared
                            = TranslationValidator.compareKeys masterKeys keys file)
         (Loading.language_files self files) compared
     ∧ TranslationValidator.validate self
       = TranslationValidator.Returned
           {| TranslationValidator.masterKeyCount := length masterKeys;
              TranslationValidator.languages := compared |})
  ∨ (TranslationValidator.validate self = TranslationValidator.ProcessExit 1
     ∧ ((∀ keys, ¬ Loading.keys_of self (TranslationValidator.masterFile self) keys)
        ∨ (∃ message,
             Node.readdirSync (TranslationValidator.localesDir self) = inr message)
        ∨ ∃ files,
            Node.readdirSync (TranslationValidator.localesDir self) = inl files
            ∧ Exists (λ file, ∀ keys, ¬ Loading.keys_of self file keys)
                (Loading.language_files self files))).
Proof.
  unfold TranslationValidator.validate.
  destruct (TranslationValidator.loadLanguageFile self
              (TranslationValidator.masterFile self)) as [ data | message ] eqn:Hload;
    simpl.
  2:{ right. split; [ done | ]. left. intros keys (data' & Hload' & _). congruence. }
  destruct (TranslationValidator.extractKeys_of data) as [ masterKeys | message ]
    eqn:Hkeys; simpl.
  2:{ right. split; [ done | ]. left. intros keys (data' & Hload' & Hkeys'). congruence. }
  destruct (Node.readdirSync (TranslationValidator.localesDir self))
    as [ files | message ] eqn:Hfiles; simpl.
  2:{ right. split; [ done | ]. right. left. eauto. }
  fold (Loading.language_files self files).
  destruct (ValidateFacts.validate_each_outcome self masterKeys
              (Loading.language_files self files) [])
    as [ (added & Hreturned & Hadded) | [Hexit Hfails] ].
  - left. exists masterKeys, files, added. split; [ by exists data | ].
    split; [ done | ]. split; [ done | ].
    destruct (Loading.language_files self files) as [ | file rest ]; simpl.
    + by apply Forall2_nil_inv_l in Hadded as ->.
    + simpl in Hreturned. by rewrite Hreturned.
  - right. destruct (Loading.language_files self files) as [ | file rest ] eqn:Hlanguages.
    { by apply Exists_nil in Hfails. }
    simpl in *. rewrite Hexit. split; [ done | ]. right. right.
    exists files. split; [ done | ]. by rewrite Hlanguages.
Qed.

(** X20.  [main] ends the process with code 0 or 1, or with the
    rejection of [run] when [--report] is given and the report cannot
    be written; with [--help] or [-h] it exits with 0 whatever else is
    given and whatever the directory holds. *)
Theorem main_ends_with_0_or_1 {platform : Node.Platform} (argv : list string) :
  let args := drop 2 argv in
  (TranslationValidator.main argv = TranslationValidator.Exited 0
   ∨ TranslationValidator.main argv = TranslationValidator.Exited 1
   ∨ ("--report" ∈ args
      ∧ ∃ message,
          Node.writeFileSync (Node.path_join Node.cwd "translation-report.json")
          = Some message
          ∧ TranslationValidator.main argv
            = TranslationValidator.UnhandledRejection message))
  ∧ ("--help" ∈ args ∨ "-h" ∈ args →
     TranslationValidator.main argv = TranslationValidator.Exited 0).
Proof.
  intros args. unfold TranslationValidator.main. fold args. split.
  - destruct (Js.includes args "--help" || Js.includes args "-h"); [ by left | ].
    match goal with |- context [ TranslationValidator.run ?self ] =>
      destruct (ValidateFacts.run_outcome self)
        as [ -> | [ -> | [ -> | (Hreport & message & Hwrite & ->) ] ] ]
    end; auto.
    right. right. split; [ | by exists message ].
    simpl in Hreport. rewrite orb_false_r in Hreport.
    by apply CompareFacts.includes_elem_of.
  - rewrite <- !CompareFacts.includes_elem_of. intros [ -> | -> ]; [ done | ].
    by rewrite orb_true_r.
Qed.

Module StrictFacts.
Import Js Node TranslationValidator.
Section WithPlatform.
Context {platform : Platform}.

(** [validate] reads the directory and the name of the master file,
    nothing else of the instance. *)
Lemma validate_each_same (self self' : TranslationValidator) masterKeys files done :
  localesDir self = localesDir self' →
  validate_each self masterKeys files done = validate_each self' masterKeys files done.
Proof.
  intros Hdir. revert done. induction files as [ | file files IH ]; intros done; simpl.
  - done.
  - unfold loadLanguageFile. rewrite Hdir.
    destruct (_ ≫= _) as [ comparison | ]; [ apply IH | done ].
Qed.

Lemma validate_same (self self' : TranslationValidator) :
  localesDir self = localesDir self' → masterFile self = masterFile self' →
  validate self = validate self'.
Proof.
  intros Hdir Hmaster. unfold validate, loadLanguageFile. rewrite Hdir, Hmaster.
  destruct (_ ≫= _) as [ [masterKeys languageFiles] | ]; [ | done ].
  destruct (length languageFiles =? 0)%nat; [ done | ].
  by rewrite (validate_each_same self self').
Qed.

Lemma includes_filter (args : list string) (flag other : string) :
  other ≠ flag →
  includes (filter (λ arg, arg ≠ flag) args) other = includes args other.
Proof.
  intros Hne. apply eq_true_iff_eq.
  rewrite !CompareFacts.includes_elem_of, list_elem_of_filter.
  split; [ by intros [_ ?] | ]. intros Hin. by split.
Qed.

End WithPlatform.
End StrictFacts.

(** X21.  The flag [--strict] changes nothing: [main] ends the same way
    with the flag removed from, or added to, its arguments. *)
Theorem strict_flag_has_no_effect {platform : Node.Platform}
    (node script : string) (args : list string) :
  TranslationValidator.main (node :: script :: args)
  = TranslationValidator.main (node :: script :: filter (λ arg, arg ≠ "--strict") args)
  ∧ TranslationValidator.main (node :: script :: args)
    = TranslationValidator.main (node :: script :: "--strict" :: args).
Proof.
  assert (∀ strict strict' warnOnly allowMissing generateReport,
            TranslationValidator.run
              (TranslationValidator.constructor
                 (TranslationValidator.Build_Options
                    strict warnOnly allowMissing generateReport))
            = TranslationValidator.run
                (TranslationValidator.constructor
                   (TranslationValidator.Build_Options
                      strict' warnOnly allowMissing generateReport))) as Hrun.
  { intros. unfold TranslationValidator.run.
    by rewrite (StrictFacts.validate_same _
                  (TranslationValidator.constructor
                     (TranslationValidator.Build_Options
                        strict' warnOnly allowMissing generateReport))). }
  split.
  - unfold TranslationValidator.main. cbn [drop]. rewrite ?drop_0.
    rewrite (StrictFacts.includes_filter args "--strict" "--warn-only") by done.
    rewrite (StrictFacts.includes_filter args "--strict" "--allow-missing") by done.
    rewrite (StrictFacts.includes_filter args "--strict" "--report") by done.
    rewrite (StrictFacts.includes_filter args "--strict" "--help") by done.
    rewrite (StrictFacts.includes_filter args "--strict" "-h") by done.
    destruct (_ || _); [ done | ].
    by rewrite (Hrun (Js.includes args "--strict")
                  (Js.includes (filter (λ arg, arg ≠ "--strict") args) "--strict")).
  - unfold TranslationValidator.main. cbn [drop]. rewrite ?drop_0.
    assert (∀ other, other ≠ "--strict" →
              Js.includes ("--strict" :: args) other = Js.includes args other) as Hskip.
    { intros other Hother. unfold Js.includes. simpl.
      by rewrite (proj2 (String.eqb_neq _ _) Hother). }
    rewrite (Hskip "--warn-only"), (Hskip "--allow-missing"), (Hskip "--report"),
      (Hskip "--help"), (Hskip "-h") by done.
    destruct (_ || _); [ done | ].
    by rewrite (Hrun (Js.includes args "--strict")
                  (Js.includes ("--strict" :: args) "--strict")).
Qed.

Module CountFacts.
Import Js TranslationValidator.

Lemma filter_present_length (keys others : list string) :
  length keys
  = length (filter (λ key, key ∈ others) keys)
    + length (filter (λ key, key ∉ others) keys).
Proof.
  induction keys as [ | k keys IH ]; [ done | ].
  rewrite !filter_cons. destruct (decide (k ∈ others)) as [ Hin | Hout ].
  - rewrite decide_False by auto. simpl. by rewrite IH.
  - rewrite decide_True by done. simpl. rewrite IH. lia.
Qed.

Lemma common_keys_perm (keys others : list string) :
  NoDup keys → NoDup others →
  filter (λ key, key ∈ others) keys ≡ₚ filter (λ key, key ∈ keys) others.
Proof.
  intros Hkeys Hothers. apply NoDup_Permutation.
  - by apply NoDup_filter.
  - by apply NoDup_filter.
  - intros key. rewrite !list_elem_of_filter. tauto.
Qed.

End CountFacts.

(** X22.  For key lists without duplicates, the numerator of the
    coverage, the target keys that are not extra, counts the keys the
    master and the target have in common, as the master keys that are
    not missing do; it never exceeds the number of master keys.  With a
    key twice in the target it can: the coverage of [["a.b", "a.b"]]
    against [["a.b"]] is 200. *)
Theorem compareKeys_counts_common_keys (masterKeys targetKeys : list string)
    (language : string) :
  NoDup masterKeys → NoDup targetKeys →
  let r := TranslationValidator.compareKeys masterKeys targetKeys language in
  let common := filter (λ key, key ∈ targetKeys) masterKeys in
  TranslationValidator.totalKeys r - length (TranslationValidator.extraKeys r)
  = length common
  ∧ length masterKeys - length (TranslationValidator.missingKeys r) = length common
  ∧ (length (TranslationValidator.extraKeys r) ≤ TranslationValidator.totalKeys r)%nat
  ∧ (length common ≤ length masterKeys)%nat
  ∧ TranslationValidator.coverage
      (TranslationValidator.compareKeys ["a.b"] ["a.b"; "a.b"] language)
    = 200%float.
Proof.
  intros Hmaster Htarget r common.
  pose proof (CountFacts.filter_present_length masterKeys targetKeys) as Hm.
  pose proof (CountFacts.filter_present_length targetKeys masterKeys) as Ht.
  pose proof (Permutation_length
                (CountFacts.common_keys_perm masterKeys targetKeys Hmaster Htarget))
    as Hcommon.
  fold common in Hm, Hcommon.
  split_and!; try (vm_compute; reflexivity);
    unfold r, TranslationValidator.compareKeys; simpl;
    rewrite ?CompareFacts.filter_absent; lia.
Qed.

Lemma compareKeys_counts_common_keys_witness :
  TranslationValidator.totalKeys
    (TranslationValidator.compareKeys ["k1"; "k2"; "k3"] ["k1"; "k4"] "ja.json")
  - length (TranslationValidator.extraKeys
              (TranslationValidator.compareKeys ["k1"; "k2"; "k3"] ["k1"; "k4"] "ja.json"))
  = length (filter (λ key, key ∈ ["k1"; "k4"]) ["k1"; "k2"; "k3"]).
Proof.
  apply (compareKeys_counts_common_keys ["k1"; "k2"; "k3"] ["k1"; "k4"] "ja.json").
  - apply (bool_decide_unpack _). vm_compute. exact I.
  - apply (bool_decide_unpack _). vm_compute. exact I.
Defined.

Module DistinctFacts.
Import Js KeyPaths TreeShape.

(** The paths through the entries of a nested tree with distinct names
    are distinct when those below each entry are. *)
Lemma entries_paths_NoDup (entries : list (string * json)) :
  NoDup entries.*1 →
  Forall (λ kv, NoDup (leaf_paths kv.2)) entries →
  NoDup (leaf_paths (JObj entries)).
Proof.
  rewrite ExtractFacts.leaf_paths_obj.
  induction entries as [ | [k v] entries IH ]; simpl.
  - intros _ _. constructor.
  - intros [Hfresh Hnames]%NoDup_cons [Hv Hrest]%Forall_cons. simpl in Hv.
    apply NoDup_app. split_and!.
    + unfold entry_paths. destruct (startsWith k "_"); [ constructor | ].
      by apply (NoDup_fmap_2 (cons k)).
    + intros segments Hhere Hthere. unfold entry_paths in Hhere.
      destruct (startsWith k "_"); [ by apply elem_of_nil in Hhere | ].
      apply list_elem_of_fmap in Hhere as (rest & -> & _).
      apply list_elem_of_In, in_flat_map in Hthere as ([k' v'] & Hin & Hthere).
      unfold entry_paths in Hthere. destruct (startsWith k' "_"); [ done | ].
      apply in_map_iff in Hthere as (rest' & [= <- _] & _).
      apply Hfresh, list_elem_of_fmap. exists (k', v'). split; [ done | ].
      by apply list_elem_of_In.
    + by apply IH.
Qed.

Lemma leaf_paths_NoDup (node : json) : names_distinct node → NoDup (leaf_paths node).
Proof.
  induction node as [ | | | | | entries IH ] using JsFacts.json_nested_ind;
    intros Hdistinct; try (apply NoDup_singleton).
  apply RoundTripFacts.names_distinct_obj in Hdistinct as [Hnames Hnested].
  apply entries_paths_NoDup; [ done | ].
  rewrite Forall_forall in IH, Hnested. apply Forall_forall.
  intros kv Hin. by apply IH, Hnested.
Qed.

End DistinctFacts.

(** X23.  [extractKeys] returns no key twice on a tree whose nested
    trees have distinct names without dots and whose root holds no
    nested tree under the empty name.  Where a name holds a dot it can:
    [{"a.b": "x", "a": {"b": "y"}}] gives [a.b] twice. *)
Theorem extractKeys_no_duplicates (tree : list (string * Js.json)) :
  TreeShape.names_distinct (Js.JObj tree) →
  TreeShape.names_all (TreeShape.lacks ".") (Js.JObj tree) →
  (∀ nested, ("", Js.JObj nested) ∉ tree) →
  NoDup (TranslationValidator.extractKeys tree "")
  ∧ TranslationValidator.extractKeys
      [("a.b", Js.JStr "x"); ("a", Js.JObj [("b", Js.JStr "y")])] ""
    = ["a.b"; "a.b"].
Proof.
  intros Hdistinct Hdots Hroot. split; [ | by vm_compute ].
  rewrite (ExtractFacts.extractKeys_root_perm tree Hroot).
  apply (NoDup_fmap_2_strong KeyPaths.dot_join);
    [ | by apply DistinctFacts.leaf_paths_NoDup ].
  intros a b Ha Hb Hjoin.
  rewrite <- (SplitFacts.split_dot_join a), <- (SplitFacts.split_dot_join b).
  - by rewrite Hjoin.
  - by eapply ExtractFacts.leaf_paths_obj_nonempty.
  - by eapply RoundTripFacts.leaf_paths_names.
  - by eapply ExtractFacts.leaf_paths_obj_nonempty.
  - by eapply RoundTripFacts.leaf_paths_names.
Qed.

Lemma extractKeys_no_duplicates_witness :
  NoDup (TranslationValidator.extractKeys
           [("app", Js.JObj [("name", Js.JStr "Test App")]); ("yes", Js.JStr "Yes")] "").
Proof.
  apply (extractKeys_no_duplicates
           [("app", Js.JObj [("name", Js.JStr "Test App")]); ("yes", Js.JStr "Yes")]).
  - repeat split; apply (bool_decide_unpack _); vm_compute; exact I.
  - repeat split; apply (bool_decide_unpack _); vm_compute; exact I.
  - intros nested [ [= ] | [ [= ] | []%elem_of_nil ]%elem_of_cons ]%elem_of_cons.
Defined.

(** ** The report *)

Module ReportFacts.
Import Js Node TranslationValidator.

Section WithRuntime.
Context {library : Library} {host : Type} {runtime : Runtime host}.

Lemma filter_all {A} (f : A → bool) (l : list A) :
  (∀ x, f x = true) → List.filter f l = l.
Proof. intros Hall. induction l as [ | x l IH ]; simpl; [ done | ]. by rewrite Hall, IH. Qed.

Lemma filter_none {A} (f : A → bool) (l : list A) :
  (∀ x, f x = false) → List.filter f l = [].
Proof. intros Hnone. induction l as [ | x l IH ]; simpl; [ done | ]. by rewrite Hnone, IH. Qed.

Lemma filter_map {A B} (f : B → bool) (g : A → B) (l : list A) :
  List.filter f (map g l) = map g (List.filter (λ x, f (g x)) l).
Proof.
  induction l as [ | x l IH ]; simpl; [ done | ].
  destruct (f (g x)); simpl; by rewrite IH.
Qed.

Lemma take_min {A} (l : list A) (n : nat) : take (length l `min` n) l = take n l.
Proof.
  destruct (Nat.le_ge_cases (length l) n) as [ Hle | Hge ].
  - rewrite Nat.min_l by done. by rewrite !take_ge.
  - by rewrite Nat.min_r.
Qed.

(** Whether a line opens with [p] is decided by a literal it opens
    with, when the literal is as long as [p]. *)
Lemma startsWith_app (literal rest p : string) :
  (String.length p ≤ String.length literal)%nat →
  startsWith (literal +:+ rest) p = startsWith literal p.
Proof.
  assert (∀ s, String.prefix "" s = true) as Hnil by (by intros [ | ]).
  unfold startsWith. revert literal.
  induction p as [ | c p IH ]; intros literal Hle; [ by rewrite !Hnil | ].
  destruct literal as [ | d literal ]; [ simpl in Hle; lia | ].
  rewrite SortFacts.app_cons. simpl.
  destruct (ascii_dec c d); [ | done ]. apply IH. simpl in Hle. lia.
Qed.

(** A line that opens with a line feed does not open with a space. *)
Lemma startsWith_newline (rest p : string) :
  startsWith (newline +:+ rest) (String " " p) = false.
Proof. unfold newline, startsWith. rewrite SortFacts.app_cons. done. Qed.

Lemma totalIssues_from (languages : list comparison) (start : nat) :
  fold_left (λ sum lang, sum + length (missingKeys lang) + length (extraKeys lang))
    languages start
  = start + totalIssues languages.
Proof.
  unfold totalIssues. revert start.
  induction languages as [ | lang languages IH ]; intros start; simpl; [ lia | ].
  rewrite IH, (IH (length _ + length _)). lia.
Qed.

Lemma totalIssues_zero (languages : list comparison) :
  totalIssues languages = 0
  ↔ Forall (λ lang, missingKeys lang = [] ∧ extraKeys lang = []) languages.
Proof.
  induction languages as [ | lang languages IH ].
  - split; [ by constructor | done ].
  - unfold totalIssues. simpl. rewrite totalIssues_from, Forall_cons, <- IH.
    rewrite <- !length_zero_iff_nil. lia.
Qed.

Lemma filter_prefixed (p literal : string) (keys : list string) :
  (String.length p ≤ String.length literal)%nat →
  List.filter (λ line, startsWith line p) (map (λ key, literal +:+ key) keys)
  = if startsWith literal p then map (λ key, literal +:+ key) keys else [].
Proof.
  intros Hle. rewrite filter_map. destruct (startsWith literal p) eqn:Hopens.
  - rewrite filter_all; [ done | ]. intros key. by rewrite startsWith_app.
  - rewrite filter_none; [ done | ]. intros key. by rewrite startsWith_app.
Qed.

(** The lines of one language that open with [p], for a [p] of at most
    three characters that opens with a space: they are among the
    missing keys shown, the line that counts the others, and the extra
    keys. *)
Lemma language_lines_opening (lang : comparison) (p : string) :
  (String.length (String " " p) ≤ 4)%nat →
  List.filter (λ line, startsWith line (String " " p)) (language_lines lang)
  = ((if startsWith "  - " (String " " p)
      then map (λ key, "  - " +:+ key) (take 10 (missingKeys lang)) else [])
     ++ (if (10 <? length (missingKeys lang))%nat
         then if startsWith "  ... and " (String " " p)
              then ["  ... and " +:+ pretty (length (missingKeys lang) - 10) +:+ " more"]
              else []
         else [])
     ++ (if startsWith "  + " (String " " p)
         then map (λ key, "  + " +:+ key) (extraKeys lang) else []))%list.
Proof.
  intros Hle. unfold language_lines.
  set (q := String " " p) in *.
  assert (∀ rest, startsWith (newline +:+ rest) q = false) as Hnewline
    by (intros rest; apply startsWith_newline).
  assert (∀ literal rest,
            (4 ≤ String.length literal)%nat →
            startsWith (literal +:+ rest) q = startsWith literal q) as Hliteral
    by (intros literal rest Hlong; apply startsWith_app; unfold q in *; simpl in *; lia).
  assert (∀ literal, startsWith (String "-" literal) q = false) as Hdash by done.
  rewrite !List.filter_app. cbn [List.filter].
  rewrite Hnewline, !Hliteral by (simpl; lia). rewrite !Hdash. cbn [app].
  assert (List.filter (λ line, startsWith line q)
            (if (0 <? length (extraKeys lang))%nat
             then (newline +:+ "Extra keys in " +:+ language lang +:+ ":")
                  :: map (λ key, "  + " +:+ key) (extraKeys lang)
             else [])
          = if startsWith "  + " q
            then map (λ key, "  + " +:+ key) (extraKeys lang) else []) as ->.
  { destruct (0 <? length (extraKeys lang))%nat eqn:Hextra.
    - cbn [List.filter]. rewrite Hnewline. apply filter_prefixed. unfold q in *. simpl in *. lia.
    - apply Nat.ltb_ge in Hextra.
      assert (extraKeys lang = []) as -> by (apply length_zero_iff_nil; lia).
      by destruct (startsWith "  + " q). }
  rewrite app_assoc. f_equal.
  destruct (0 <? length (missingKeys lang))%nat eqn:Hsome.
  - cbn [List.filter]. rewrite Hnewline, List.filter_app.
    rewrite take_min, filter_prefixed by (unfold q in *; simpl in *; lia). f_equal.
    destruct (length (missingKeys lang) `min` 10 <? length (missingKeys lang))%nat
      eqn:Hmore.
    + apply Nat.ltb_lt in Hmore.
      assert ((10 <? length (missingKeys lang))%nat = true) as ->
        by (apply Nat.ltb_lt; lia).
      rewrite Nat.min_r by lia. cbn [List.filter].
      rewrite Hliteral by (simpl; lia). by destruct (startsWith "  ... and " q).
    + apply Nat.ltb_ge in Hmore.
      by assert ((10 <? length (missingKeys lang))%nat = false) as ->
        by (apply Nat.ltb_ge; lia).
  - apply Nat.ltb_ge in Hsome.
    assert (missingKeys lang = []) as -> by (apply length_zero_iff_nil; lia).
    cbn [length take map List.filter]. change (10 <? 0)%nat with false.
    by destruct (startsWith "  - " q).
Qed.

Lemma hasIssues_totalIssues (languages : list comparison) :
  existsb (λ lang, (0 <? length (missingKeys lang))%nat
                   || (0 <? length (extraKeys lang))%nat) languages
  = negb (totalIssues languages =? 0)%nat.
Proof.
  induction languages as [ | lang languages IH ]; [ done | ].
  unfold totalIssues. simpl. rewrite totalIssues_from, IH.
  destruct (length (missingKeys lang)), (length (extraKeys lang)),
    (totalIssues languages); done.
Qed.

Lemma last_after {A} (before middle : list A) (x : A) :
  last (before ++ middle ++ [x]) = Some x.
Proof. by rewrite !app_assoc, last_snoc. Qed.

(** The last line of a report on at least one language. *)
Lemma report_last_line (self : TranslationValidator) (r : results) :
  languages r ≠ [] →
  last (generateValidationReport self r)
  = Some (if (totalIssues (languages r) =? 0)%nat then "✅ All translations are in sync!"
          else if allowMissing self then "⚠️  Issues found but allowed in current mode"
          else "❌ Translation sync issues detected").
Proof.
  intros Hsome. unfold generateValidationReport.
  destruct (languages r) as [ | lang rest ] eqn:Hlanguages; [ done | ].
  cbn [length Nat.eqb].
  match goal with
  | |- last (?head ++ ?body ++ [?a; ?b; ?c; ?d; ?v]) = _ =>
      change (last (head ++ (body ++ [a; b; c; d] ++ [v])) = Some v)
  end.
  by rewrite (app_assoc (flat_map _ _)), last_after.
Qed.

End WithRuntime.
End ReportFacts.

(** X24.  Of the lines the report writes for a language, those that
    open with ["  - "] are the first ten missing keys in their order,
    those that open with ["  + "] are all the extra keys, and the line
    ["  ... and n more"] is written exactly when more than ten keys are
    missing, with [n] the number of those not shown. *)
Theorem report_lists_ten_missing_keys {host : Type} {runtime : Js.Runtime host}
    (lang : TranslationValidator.comparison) :
  let lines := TranslationValidator.language_lines lang in
  let missing := TranslationValidator.missingKeys lang in
  List.filter (λ line, Js.startsWith line "  - ") lines
  = map (λ key, "  - " +:+ key) (take 10 missing)
  ∧ List.filter (λ line, Js.startsWith line "  + ") lines
    = map (λ key, "  + " +:+ key) (TranslationValidator.extraKeys lang)
  ∧ List.filter (λ line, Js.startsWith line "  .") lines
    = if (10 <? length missing)%nat
      then ["  ... and " +:+ pretty (length missing - 10) +:+ " more"]
      else [].
Proof.
  intros lines missing. unfold lines, missing.
  rewrite !ReportFacts.language_lines_opening by (simpl; lia).
  split_and!.
  - change (Js.startsWith "  - " "  - ") with true.
    change (Js.startsWith "  ... and " "  - ") with false.
    change (Js.startsWith "  + " "  - ") with false.
    destruct (10 <? _)%nat; by rewrite !app_nil_r.
  - change (Js.startsWith "  - " "  + ") with false.
    change (Js.startsWith "  ... and " "  + ") with false.
    change (Js.startsWith "  + " "  + ") with true.
    by destruct (10 <? _)%nat.
  - change (Js.startsWith "  - " "  .") with false.
    change (Js.startsWith "  ... and " "  .") with true.
    change (Js.startsWith "  + " "  .") with false.
    destruct (10 <? _)%nat; by rewrite ?app_nil_r.
Qed.

(** X25.  For a validation that returns results for at least one
    language (and writes its report, when one is asked for): the total
    of issues the report prints is zero exactly when no language has a
    missing or an extra key; the last line of the report says the
    translations are in sync exactly then; [run] returns 0 exactly when
    the total is zero or a lenient mode is set, and 1 otherwise.  With
    issues, the last line reports a failure unless [allowMissing] is
    set, also under [warnOnly], where [run] returns 0. *)
Theorem report_verdict_and_exit_code {platform : Node.Platform}
    {library : Node.Library} {host : Type} {runtime : Js.Runtime host}
    (self : TranslationValidator.TranslationValidator)
    (r : TranslationValidator.results) :
  TranslationValidator.validate self = TranslationValidator.Returned r →
  TranslationValidator.languages r ≠ [] →
  (TranslationValidator.generateReport self = true →
   Node.writeFileSync (Node.path_join Node.cwd "translation-report.json") = None) →
  let issues := TranslationValidator.totalIssues (TranslationValidator.languages r) in
  let verdict := last (TranslationValidator.generateValidationReport self r) in
  (issues = 0
   ↔ Forall (λ lang, TranslationValidator.missingKeys lang = []
                     ∧ TranslationValidator.extraKeys lang = [])
       (TranslationValidator.languages r))
  ∧ (verdict = Some "✅ All translations are in sync!" ↔ issues = 0)
  ∧ (TranslationValidator.run self = TranslationValidator.Returned 0%Z
     ↔ issues = 0
       ∨ TranslationValidator.allowMissing self = true
       ∨ TranslationValidator.warnOnly self = true)
  ∧ (TranslationValidator.run self = TranslationValidator.Returned 1%Z
     ↔ issues ≠ 0
       ∧ TranslationValidator.allowMissing self = false
       ∧ TranslationValidator.warnOnly self = false)
  ∧ (issues ≠ 0 → TranslationValidator.allowMissing self = false →
     verdict = Some "❌ Translation sync issues detected")
  ∧ (issues ≠ 0 → TranslationValidator.allowMissing self = true →
     verdict = Some "⚠️  Issues found but allowed in current mode").
Proof.
  intros Hvalidate Hsome Hwrite issues verdict.
  assert (verdict
          = Some (if (issues =? 0)%nat then "✅ All translations are in sync!"
                  else if TranslationValidator.allowMissing self
                       then "⚠️  Issues found but allowed in current mode"
                       else "❌ Translation sync issues detected")) as Hverdict
    by (by apply ReportFacts.report_last_line).
  assert (TranslationValidator.run self
          = TranslationValidator.Returned
              (if (issues =? 0)%nat then 0%Z
               else if TranslationValidator.allowMissing self then 0%Z
               else if TranslationValidator.warnOnly self then 0%Z else 1%Z)) as Hrun.
  { unfold TranslationValidator.run. rewrite Hvalidate.
    assert ((if TranslationValidator.generateReport self
             then TranslationValidator.saveJsonReport r else Node.Normal ())
            = Node.Normal ()) as ->.
    { destruct (TranslationValidator.generateReport self); [ | done ].
      unfold TranslationValidator.saveJsonReport. by rewrite Hwrite. }
    rewrite ReportFacts.hasIssues_totalIssues. fold issues.
    destruct (issues =? 0)%nat; simpl; [ done | ].
    destruct (TranslationValidator.allowMissing self); [ done | ].
    by destruct (TranslationValidator.warnOnly self). }
  rewrite Hverdict, Hrun. clear Hverdict Hrun.
  split_and!.
  - apply ReportFacts.totalIssues_zero.
  - destruct (Nat.eqb_spec issues 0) as [ Hzero | Hissues ]; [ done | ].
    split; [ | done ]. by destruct (TranslationValidator.allowMissing self).
  - destruct (Nat.eqb_spec issues 0) as [ Hzero | Hissues ]; [ by split; auto | ].
    destruct (TranslationValidator.allowMissing self); [ by split; auto | ].
    destruct (TranslationValidator.warnOnly self); [ by split; auto | ].
    split; [ done | ]. by intros [ ? | [ ? | ? ] ].
  - destruct (Nat.eqb_spec issues 0) as [ Hzero | Hissues ].
    { split; [ done | ]. by intros [? _]. }
    destruct (TranslationValidator.allowMissing self).
    { split; [ done | ]. by intros (_ & ? & _). }
    destruct (TranslationValidator.warnOnly self).
    { split; [ done | ]. by intros (_ & _ & ?). }
    done.
  - intros Hissues ->. by rewrite (proj2 (Nat.eqb_neq _ _) Hissues).
  - intros Hissues ->. by rewrite (proj2 (Nat.eqb_neq _ _) Hissues).
Qed.

Lemma report_verdict_and_exit_code_witness :
  TranslationValidator.run (platform := Fixtures.two_locales)
    (TranslationValidator.constructor (platform := Fixtures.two_locales)
       (TranslationValidator.Build_Options false true false false))
  = TranslationValidator.Returned 0%Z
  ∧ ∃ r,
      TranslationValidator.validate (platform := Fixtures.two_locales)
        (TranslationValidator.constructor (platform := Fixtures.two_locales)
           (TranslationValidator.Build_Options false true false false))
      = TranslationValidator.Returned r
      ∧ last (TranslationValidator.generateValidationReport (library := Fixtures.library)
                (runtime := Fixtures.plain)
                (TranslationValidator.constructor (platform := Fixtures.two_locales)
                   (TranslationValidator.Build_Options false true false false))
                r)
        = Some "❌ Translation sync issues detected".
Proof.
  set (self := TranslationValidator.constructor (platform := Fixtures.two_locales)
                 (TranslationValidator.Build_Options false true false false)).
  destruct (TranslationValidator.validate (platform := Fixtures.two_locales) self)
    as [ r | | ] eqn:Hvalidate; [ | by vm_compute in Hvalidate.. ].
  assert (TranslationValidator.languages r ≠ []) as Hsome.
  { intros Hnone. vm_compute in Hvalidate. injection Hvalidate as <-. done. }
  assert (TranslationValidator.totalIssues (TranslationValidator.languages r) ≠ 0)
    as Hissues.
  { intros Hzero. vm_compute in Hvalidate. injection Hvalidate as <-. done. }
  destruct (report_verdict_and_exit_code (platform := Fixtures.two_locales)
              (library := Fixtures.library) (runtime := Fixtures.plain)
              self r Hvalidate Hsome)
    as (_ & _ & Hzero & _ & Hdetected & _); [ done | ].
  split.
  - apply Hzero. right. by right.
  - exists r. split; [ done | ]. by apply Hdetected.
Defined.

(** ** What holds of the paths that resolve *)

(** X26.  When the key path, walked through the nested trees of the
    target locale, reaches a value, [t] returns that value, not the
    fallback's, and writes no diagnostic; with parameters it returns it
    after their substitution. *)
Theorem t_returns_resolved_value {host : Type} {runtime : Js.Runtime host}
    (self : I18n.I18n) (key : string) (params : list (string * Js.json))
    (locale : option string) (tree : list (string * Js.json)) (value : Js.json) :
  I18n.translations self !! I18n.or_else locale (I18n.locale self)
  = Some (Js.JObj tree) →
  TreeShape.walk (Js.JObj tree) (Js.split "." key) = Some value →
  I18n.t self key [] locale = (Js.Data value, [])
  ∧ I18n.t self key params locale = (Notions.substituted (Js.Data value) params, []).
Proof.
  intros Htree Hwalk.
  assert (I18n.getNestedValue (Some (Js.JObj tree)) key
          = Some (Js.Data (host := host) value)) as Hfound
    by (by apply (RoundTripFacts.getNestedValue_walk _ _ (Js.split "." key))).
  rewrite !ResolveFacts.t_unfold. cbv zeta. rewrite Htree, Hfound.
  by rewrite ResolveFacts.substituted_no_params.
Qed.

Lemma t_returns_resolved_value_witness :
  I18n.t (runtime := Fixtures.plain) Fixtures.resolver "app.name" [] None
  = (Js.Data (Js.JStr "Tesuto"), []).
Proof.
  apply (t_returns_resolved_value (runtime := Fixtures.plain) Fixtures.resolver
           "app.name" [] None [("app", Js.JObj [("name", Js.JStr "Tesuto")]);
                               ("common", Js.JObj [("yes", Js.JStr "Hai")])]
           (Js.JStr "Tesuto")); reflexivity.
Defined.

(** X27.  For every tree whose root holds no nested tree under the
    empty segment name, [extractKeys] returns the sorted list of the
    dot-joined key paths from the root to each leaf, where a segment
    whose name starts with [_] is skipped at every level and a leaf is
    any value that is not a nested tree (strings, numbers, booleans,
    arrays and [null]).  In particular, on
    [{_meta: ..., a: {b: "x"}, c: "y"}] it yields exactly
    [["a.b", "c"]]. *)
Theorem extractKeys_key_paths (tree : list (string * Js.json)) :
  (∀ nested, ("", Js.JObj nested) ∉ tree) →
  TranslationValidator.extractKeys tree "" = KeyPaths.key_paths tree
  ∧ StronglySorted String.le (TranslationValidator.extractKeys tree "")
  ∧ ∀ meta,
      TranslationValidator.extractKeys
        [("_meta", meta); ("a", Js.JObj [("b", Js.JStr "x")]); ("c", Js.JStr "y")] ""
      = ["a.b"; "c"].
Proof.
  intros Hroot. split; [ | split ].
  - unfold KeyPaths.key_paths.
    rewrite <- (SortFacts.sort_of_perm _ _ (ExtractFacts.extractKeys_root_perm tree Hroot)).
    symmetry. apply (StronglySorted_unique String.le).
    + apply SortFacts.sort_sorted.
    + apply SortFacts.sort_sorted.
    + apply SortFacts.sort_perm.
  - apply SortFacts.sort_sorted.
  - intros meta. unfold TranslationValidator.extractKeys.
    cbn [flat_map]. by rewrite ExtractFacts.entry_keys_unfold.
Qed.

Lemma extractKeys_key_paths_witness :
  TranslationValidator.extractKeys
    [("_meta", Js.JObj [("name", Js.JStr "English")]);
     ("a", Js.JObj [("b", Js.JStr "x")]); ("c", Js.JStr "y")] ""
  = KeyPaths.key_paths
      [("_meta", Js.JObj [("name", Js.JStr "English")]);
       ("a", Js.JObj [("b", Js.JStr "x")]); ("c", Js.JStr "y")].
Proof.
  apply (extractKeys_key_paths
           [("_meta", Js.JObj [("name", Js.JStr "English")]);
            ("a", Js.JObj [("b", Js.JStr "x")]); ("c", Js.JStr "y")]).
  intros nested Hin. by repeat (apply elem_of_cons in Hin as [ [= ] | Hin ]);
    apply elem_of_nil in Hin.
Defined.

(** X28.  For every locale tree whose segment names contain no dot and
    whose root holds no nested tree under the empty segment name (the
    names of the entries of a tree being distinct, as those of an
    object are), resolving a key path produced by
    [extractKeys] from that tree, against a resolver whose target locale
    holds the tree, finds a value of the tree and returns it (after the
    substitution of the parameters, if any) without the diagnostic of a
    missing translation: no path is extracted but unresolvable. *)
Theorem extracted_paths_resolve {host : Type} {runtime : Js.Runtime host}
    (self : I18n.I18n) (tree : list (string * Js.json)) (path : string)
    (params : list (string * Js.json)) (locale : option string) :
  I18n.translations self !! I18n.or_else locale (I18n.locale self)
  = Some (Js.JObj tree) →
  TreeShape.names_distinct (Js.JObj tree) →
  TreeShape.names_all (TreeShape.lacks ".") (Js.JObj tree) →
  (∀ nested, ("", Js.JObj nested) ∉ tree) →
  path ∈ TranslationValidator.extractKeys tree "" →
  ∃ found,
    I18n.getNestedValue (Some (Js.JObj tree)) path = Some (Js.Data found)
    ∧ I18n.t self path [] locale = (Js.Data found, [])
    ∧ I18n.t self path params locale
      = (Notions.substituted (Js.Data found) params, []).
Proof.
  intros Htree Hdistinct Hdots Hroot Hpath.
  rewrite (ExtractFacts.extractKeys_root_perm tree Hroot) in Hpath.
  apply list_elem_of_In, in_map_iff in Hpath as (segments & <- & Hsegs).
  apply list_elem_of_In in Hsegs.
  destruct (RoundTripFacts.leaf_paths_walk _ _ Hdistinct Hsegs) as [found Hwalk].
  assert (I18n.getNestedValue (Some (Js.JObj tree)) (KeyPaths.dot_join segments)
          = Some (Js.Data found)) as Hfound.
  { apply (RoundTripFacts.getNestedValue_walk _ _ segments); [ | done ].
    apply SplitFacts.split_dot_join.
    - by eapply ExtractFacts.leaf_paths_obj_nonempty.
    - by eapply RoundTripFacts.leaf_paths_names. }
  exists found. rewrite !ResolveFacts.t_unfold. cbv zeta.
  by rewrite Htree, Hfound, ResolveFacts.substituted_no_params.
Qed.

Lemma extracted_paths_resolve_witness :
  ∃ found,
    I18n.getNestedValue (runtime := Fixtures.plain) (Some Fixtures.en_tree) "app.version"
    = Some (Js.Data found)
    ∧ I18n.t (runtime := Fixtures.plain) Fixtures.resolver "app.version" []
        (Some "en")
      = (Js.Data found, [])
    ∧ I18n.t (runtime := Fixtures.plain) Fixtures.resolver "app.version"
        [("version", Js.JStr "1.0.0")] (Some "en")
      = (Notions.substituted (runtime := Fixtures.plain) (Js.Data found)
           [("version", Js.JStr "1.0.0")], []).
Proof.
  apply (extracted_paths_resolve (runtime := Fixtures.plain) Fixtures.resolver).
  - reflexivity.
  - repeat split; apply (bool_decide_unpack _); vm_compute; exact I.
  - repeat split; apply (bool_decide_unpack _); vm_compute; exact I.
  - intros nested Hin.
    repeat (apply elem_of_cons in Hin as [ [= ] | Hin ]).
    by apply elem_of_nil in Hin.
  - apply (bool_decide_unpack _). vm_compute. exact I.
Defined.

